(** * memory-game: the board state machine of the React client and the
      result store of the Express server

    The client part embeds [frontend/src/App.js] (the component state, the
    handlers [initializeGame], [handleCardClick], [saveResult] and the two
    [setTimeout] callbacks); the server part embeds [backend/server.js]
    (the handlers of [POST /api/results] and [GET /api/leaderboard]). *)

From Stdlib Require Import String Ascii.
From Stdlib Require Import List Arith Bool ZArith NArith Lia.
From Stdlib Require Import Permutation Sorted DecimalString.
Import ListNotations.

(* ================================================================== *)
(** ** JavaScript values *)
(* ================================================================== *)

(** A JavaScript string is a sequence of UTF-16 code units. *)
Definition jsstring := list N.

(** The code units of an ASCII literal. *)
Definition str (s : string) : jsstring :=
  List.map N_of_ascii (list_ascii_of_string s).

(** The values a parsed JSON body can hold, plus [undefined] for a property
    that is absent.  Numbers are the integral ones. *)
#[warnings="-register-all"]
Inductive JsValue : Type :=
| JUndefined
| JNull
| JBool (b : bool)
| JNum (n : Z)
| JStr (s : jsstring)
| JObject (props : list (string * JsValue)).

(** [obj.key] of an object given by its properties, each listed once;
    [undefined] when the object has no such property. *)
Fixpoint prop (key : string) (props : list (string * JsValue)) : JsValue :=
  match props with
  | [] => JUndefined
  | (k, v) :: rest => if String.eqb k key then v else prop key rest
  end.

Definition has_prop (key : string) (props : list (string * JsValue)) : bool :=
  existsb (fun kv => String.eqb (fst kv) key) props.

(** ToBoolean. *)
Definition truthy (v : JsValue) : bool :=
  match v with
  | JUndefined | JNull => false
  | JBool b => b
  | JNum n => negb (n =? 0)%Z
  | JStr s => match s with [] => false | _ :: _ => true end
  | JObject _ => true
  end.

(** [v === undefined]. *)
Definition is_undefined (v : JsValue) : bool :=
  match v with JUndefined => true | _ => false end.

(** [a || b]. *)
Definition js_or (a b : JsValue) : JsValue := if truthy a then a else b.

(** WhiteSpace and LineTerminator code units, the ones [String.prototype.trim]
    strips. *)
Definition is_white_space (u : N) : bool :=
  (  (u =? 9) || (u =? 10) || (u =? 11) || (u =? 12) || (u =? 13)
  || (u =? 32) || (u =? 160) || (u =? 5760)
  || ((8192 <=? u) && (u <=? 8202))
  || (u =? 8232) || (u =? 8233) || (u =? 8239) || (u =? 8287)
  || (u =? 12288) || (u =? 65279))%N.

Fixpoint trimStart (s : jsstring) : jsstring :=
  match s with
  | [] => []
  | u :: rest => if is_white_space u then trimStart rest else s
  end.

Definition trimEnd (s : jsstring) : jsstring := rev (trimStart (rev s)).

Definition trim (s : jsstring) : jsstring := trimEnd (trimStart s).

Definition is_empty (s : jsstring) : bool :=
  match s with [] => true | _ :: _ => false end.

(* ================================================================== *)
(** ** The client: frontend/src/App.js *)
(* ================================================================== *)

Module App.

(** Gen 1 Pokemon IDs (first 8 for 4x4 grid = 16 cards, 8 pairs). *)
Definition POKEMON_IDS : list nat := [1; 4; 7; 25; 39; 52; 54; 133].

Record Card : Type := mkCard {
  id : nat;
  pokemonId : nat;
  image : string;
  isFlipped : bool;
  isMatched : bool
}.

(** [{ ...c, isFlipped: b }] *)
Definition with_isFlipped (b : bool) (c : Card) : Card :=
  mkCard (id c) (pokemonId c) (image c) b (isMatched c).

(** [{ ...c, isMatched: true, isFlipped: true }] *)
Definition with_matched (c : Card) : Card :=
  mkCard (id c) (pokemonId c) (image c) true true.

Definition image_url (pokemon : nat) : string :=
  ("https://raw.githubusercontent.com/PokeAPI/sprites/master/sprites/pokemon/other/official-artwork/"
   ++ NilEmpty.string_of_uint (Nat.to_uint pokemon) ++ ".png")%string.

(** The callback of [pokemonPairs.map((pokemon, index) => ...)]. *)
Definition newCard (pokemon index : nat) : Card :=
  mkCard index pokemon (image_url pokemon) false false.

(** [xs.map((x, index) => f x index)], counting from [start]. *)
Fixpoint mapi {A B : Type} (f : A -> nat -> B) (start : nat) (xs : list A)
  : list B :=
  match xs with
  | [] => []
  | x :: rest => f x start :: mapi f (S start) rest
  end.

Definition pokemonPairs : list nat := POKEMON_IDS ++ POKEMON_IDS.

(** The array handed to [.sort(() => Math.random() - 0.5)]. *)
Definition dealt : list Card := mapi newCard 0 pokemonPairs.

(** The component state ([useState] cells read by the three handlers). *)
Record AppState : Type := mkApp {
  cards : list Card;
  flippedCards : list nat;
  matchedPairs : list nat;
  score : nat;
  tries : nat;
  gameOver : bool;
  playerName : jsstring;
  showNameInput : bool
}.

Definition initialState : AppState :=
  mkApp [] [] [] 0 0 false [] false.

Definition setCards (v : list Card) (s : AppState) : AppState :=
  mkApp v (flippedCards s) (matchedPairs s) (score s) (tries s)
        (gameOver s) (playerName s) (showNameInput s).
Definition setFlippedCards (v : list nat) (s : AppState) : AppState :=
  mkApp (cards s) v (matchedPairs s) (score s) (tries s)
        (gameOver s) (playerName s) (showNameInput s).
Definition setMatchedPairs (v : list nat) (s : AppState) : AppState :=
  mkApp (cards s) (flippedCards s) v (score s) (tries s)
        (gameOver s) (playerName s) (showNameInput s).
Definition setScore (v : nat) (s : AppState) : AppState :=
  mkApp (cards s) (flippedCards s) (matchedPairs s) v (tries s)
        (gameOver s) (playerName s) (showNameInput s).
Definition setTries (v : nat) (s : AppState) : AppState :=
  mkApp (cards s) (flippedCards s) (matchedPairs s) (score s) v
        (gameOver s) (playerName s) (showNameInput s).
Definition setGameOver (v : bool) (s : AppState) : AppState :=
  mkApp (cards s) (flippedCards s) (matchedPairs s) (score s) (tries s)
        v (playerName s) (showNameInput s).
Definition setPlayerName (v : jsstring) (s : AppState) : AppState :=
  mkApp (cards s) (flippedCards s) (matchedPairs s) (score s) (tries s)
        (gameOver s) v (showNameInput s).
Definition setShowNameInput (v : bool) (s : AppState) : AppState :=
  mkApp (cards s) (flippedCards s) (matchedPairs s) (score s) (tries s)
        (gameOver s) (playerName s) v.

(** [initializeGame].  The comparator [() => Math.random() - 0.5] is not a
    consistent one, so the order [Array.prototype.sort] leaves is not
    determined by the code; [sort] stands for that call. *)
Definition initializeGame (sort : list Card -> list Card) (s : AppState)
  : AppState :=
  let shuffled := sort dealt in
  setShowNameInput false
    (setGameOver false
      (setTries 0
        (setScore 0
          (setMatchedPairs []
            (setFlippedCards []
              (setCards shuffled s)))))).

(** What [sort] is known to do: it rearranges the array. *)
Definition rearranges (sort : list Card -> list Card) : Prop :=
  forall l, Permutation l (sort l).

(** [cards.find(c => c.id === cardId)] *)
Definition findCard (cardId : nat) (cs : list Card) : option Card :=
  find (fun c => id c =? cardId) cs.

(** [xs.includes(x)] *)
Definition includes (x : nat) (xs : list nat) : bool :=
  existsb (Nat.eqb x) xs.

(** The closures handed to [setTimeout], with the variables they capture. *)
Inductive Timer : Type :=
| MarkMatched (updatedCards : list Card) (firstCard : Card)
              (newMatchedPairs : list nat)          (* 500 ms *)
| FlipBack (updatedCards : list Card) (newFlippedCards : list nat).
                                                    (* 1000 ms *)

Definition delay (t : Timer) : nat :=
  match t with MarkMatched _ _ _ => 500 | FlipBack _ _ => 1000 end.

(** A handler either returns, with the state its setters leave and the
    timers it scheduled, or throws a [TypeError] on reading a property of
    [undefined], with the state of the setters called before. *)
Inductive Outcome : Type :=
| Returned (s : AppState) (scheduled : list Timer)
| Threw (s : AppState).

Definition handleCardClick (s : AppState) (cardId : nat) : Outcome :=
  match findCard cardId (cards s) with
  | None => Threw s
  | Some card =>
    if isFlipped card
       || isMatched card
       || (List.length (flippedCards s) =? 2)
       || includes (pokemonId card) (matchedPairs s)
    then Returned s []
    else
      let newFlippedCards := flippedCards s ++ [cardId] in
      let s1 := setFlippedCards newFlippedCards s in
      let updatedCards :=
        List.map (fun c => if id c =? cardId then with_isFlipped true c else c)
                 (cards s) in
      let s2 := setCards updatedCards s1 in
      if List.length newFlippedCards =? 2 then
       (let firstCardId := nth 0 newFlippedCards 0 in
        let secondCardId := nth 1 newFlippedCards 0 in
        let s3 := setTries (tries s + 1) s2 in
        match findCard firstCardId (cards s),
              findCard secondCardId updatedCards with
        | Some firstCard, Some secondCard =>
          if pokemonId firstCard =? pokemonId secondCard then
            let newMatchedPairs := matchedPairs s ++ [pokemonId firstCard] in
            let s4 := setMatchedPairs newMatchedPairs s3 in
            let s5 := setScore (score s + 10) s4 in
            Returned s5 [MarkMatched updatedCards firstCard newMatchedPairs]
          else
            Returned s3 [FlipBack updatedCards newFlippedCards]
        | _, _ => Threw s3
        end)
      else Returned s2 []
  end.

(** The body of a [setTimeout] callback, run on the state current when it
    fires. *)
Definition fire (t : Timer) (s : AppState) : AppState :=
  match t with
  | MarkMatched updatedCards firstCard newMatchedPairs =>
    let matchedCards :=
      List.map (fun c => if pokemonId c =? pokemonId firstCard
                         then with_matched c else c)
               updatedCards in
    let s1 := setFlippedCards [] (setCards matchedCards s) in
    if List.length newMatchedPairs =? length POKEMON_IDS
    then setShowNameInput true (setGameOver true s1)
    else s1
  | FlipBack updatedCards newFlippedCards =>
    let resetCards :=
      List.map (fun c => if includes (id c) newFlippedCards
                         then with_isFlipped false c else c)
               updatedCards in
    setFlippedCards [] (setCards resetCards s)
  end.

(** The request body of [axios.post('/api/results', ...)] in [saveResult];
    [None] when the handler returns after the alert, without a request. *)
Definition saveResult (s : AppState) : option (list (string * JsValue)) :=
  if is_empty (trim (playerName s)) then None
  else Some [ ("player_name"%string, JStr (playerName s));
              ("score"%string, JNum (Z.of_nat (score s)));
              ("tries"%string, JNum (Z.of_nat (tries s)));
              ("matches"%string,
                 JNum (Z.of_nat (List.length (matchedPairs s) + 1))) ].

(** *** The event loop: the component state and the timers not yet fired *)

Record World : Type := mkWorld {
  app : AppState;
  pending : list Timer
}.

Inductive Event : Type :=
| Click (cardId : nat)                       (* a rendered card is clicked *)
| Fire (k : nat)                             (* the k-th pending timer fires *)
| NewGame (sort : list Card -> list Card)    (* the New Game button *)
| TypeName (name : jsstring)                 (* the name input changes *)
| Saved.                                     (* the POST of saveResult is answered *)

Fixpoint remove_nth {A : Type} (k : nat) (l : list A) : list A :=
  match l, k with
  | [], _ => []
  | _ :: rest, O => rest
  | x :: rest, S k' => x :: remove_nth k' rest
  end.

(** One turn of the event loop.  A card can only be clicked when it is
    rendered, that is when [cards] holds a card of that id. *)
Inductive step : World -> Event -> World -> Prop :=
| step_click w cardId s' ts :
    In cardId (List.map id (cards (app w))) ->
    handleCardClick (app w) cardId = Returned s' ts ->
    step w (Click cardId) (mkWorld s' (pending w ++ ts))
| step_fire w k t :
    nth_error (pending w) k = Some t ->
    step w (Fire k) (mkWorld (fire t (app w)) (remove_nth k (pending w)))
| step_new w sort :
    rearranges sort ->
    step w (NewGame sort) (mkWorld (initializeGame sort (app w)) (pending w))
| step_name w name :
    step w (TypeName name) (mkWorld (setPlayerName name (app w)) (pending w))
| step_saved w :
    step w Saved (mkWorld (setShowNameInput false (app w)) (pending w)).

(** The executable form of a turn; [None] where [step] has no successor. *)
Definition run1 (w : World) (e : Event) : option World :=
  match e with
  | Click cardId =>
    if includes cardId (List.map id (cards (app w))) then
      match handleCardClick (app w) cardId with
      | Returned s' ts => Some (mkWorld s' (pending w ++ ts))
      | Threw _ => None
      end
    else None
  | Fire k =>
    match nth_error (pending w) k with
    | Some t => Some (mkWorld (fire t (app w)) (remove_nth k (pending w)))
    | None => None
    end
  | NewGame sort => Some (mkWorld (initializeGame sort (app w)) (pending w))
  | TypeName name => Some (mkWorld (setPlayerName name (app w)) (pending w))
  | Saved => Some (mkWorld (setShowNameInput false (app w)) (pending w))
  end.

Fixpoint run (w : World) (es : list Event) : option World :=
  match es with
  | [] => Some w
  | e :: rest =>
    match run1 w e with
    | Some w' => run w' rest
    | None => None
    end
  end.

(** The sort of a New Game turn has to be one that rearranges. *)
Definition lawful (e : Event) : Prop :=
  match e with NewGame sort => rearranges sort | _ => True end.

(** Events that belong to one game: anything but New Game. *)
Definition in_game (e : Event) : Prop :=
  match e with NewGame _ => False | _ => True end.

Inductive steps : World -> list Event -> World -> Prop :=
| steps_nil w : steps w [] w
| steps_cons w e w1 es w2 :
    step w e w1 -> steps w1 es w2 -> steps w (e :: es) w2.

(** A game just started, no timer pending. *)
Definition fresh (sort : list Card -> list Card) (s0 : AppState) : World :=
  mkWorld (initializeGame sort s0) [].

(** The world after the mount effect: [useEffect(() => initializeGame())]. *)
Definition mounted (sort : list Card -> list Card) : World :=
  fresh sort initialState.

(** The worlds the page can be in: any turns after the mount. *)
Definition reachable (w : World) : Prop :=
  exists sort evs, rearranges sort /\ steps (mounted sort) evs w.

(** The worlds of one game: turns after a fresh start, none of them a
    New Game. *)
Definition in_one_game (w : World) : Prop :=
  exists sort s0 evs,
    rearranges sort /\ Forall in_game evs /\ steps (fresh sort s0) evs w.

(** *** Names for the pieces of the handlers *)

(** The guard at the top of [handleCardClick]. *)
Definition ignores (s : AppState) (card : Card) : bool :=
  isFlipped card
  || isMatched card
  || (List.length (flippedCards s) =? 2)
  || includes (pokemonId card) (matchedPairs s).

(** [updatedCards] *)
Definition flipUp (cardId : nat) (cs : list Card) : list Card :=
  List.map (fun c => if id c =? cardId then with_isFlipped true c else c) cs.

(** [matchedCards] *)
Definition markSymbol (firstCard : Card) (cs : list Card) : list Card :=
  List.map (fun c => if pokemonId c =? pokemonId firstCard
                     then with_matched c else c) cs.

(** [resetCards] *)
Definition flipDown (ids : list nat) (cs : list Card) : list Card :=
  List.map (fun c => if includes (id c) ids
                     then with_isFlipped false c else c) cs.

(** *** What holds of the worlds of one game *)

(** The card is one of the sixteen dealt: its id is the index it was
    created at and its symbol the entry of [pokemonPairs] there. *)
Definition from_deal (c : Card) : Prop :=
  id c < List.length pokemonPairs /\
  pokemonId c = nth (id c) pokemonPairs 0.

(** The ids in [flippedCards] name cards on the board that lie face up,
    are not matched, and whose symbol is not in [matchedPairs]. *)
Definition face_up_unmatched (s : AppState) (ids : list nat) : Prop :=
  forall x, In x ids ->
    In x (List.map id (cards s)) /\
    forall c, In c (cards s) -> id c = x ->
      isFlipped c = true /\ isMatched c = false /\
      includes (pokemonId c) (matchedPairs s) = false.

(** Between two turns the page is in one of three phases: waiting for a
    click with at most one card turned, waiting for the flip-back timer,
    or waiting for the timer that marks a match. *)
Definition phase (w : World) : Prop :=
  match pending w with
  | [] =>
    List.length (flippedCards (app w)) <= 1 /\
    face_up_unmatched (app w) (flippedCards (app w))
  | [FlipBack updatedCards newFlippedCards] =>
    updatedCards = cards (app w) /\
    newFlippedCards = flippedCards (app w) /\
    List.length (flippedCards (app w)) = 2 /\
    face_up_unmatched (app w) (flippedCards (app w))
  | [MarkMatched updatedCards firstCard newMatchedPairs] =>
    updatedCards = cards (app w) /\
    newMatchedPairs = matchedPairs (app w) /\
    List.length (flippedCards (app w)) = 2
  | _ => False
  end.

Record game_inv (w : World) : Prop := mkInv {
  inv_ids : NoDup (List.map id (cards (app w)));
  inv_deal : Forall from_deal (cards (app w));
  inv_matched_up :
    forall c, In c (cards (app w)) -> isMatched c = true ->
              isFlipped c = true;
  inv_symbol_up :
    forall c, In c (cards (app w)) ->
              includes (pokemonId c) (matchedPairs (app w)) = true ->
              isFlipped c = true;
  inv_pairs : NoDup (matchedPairs (app w));
  inv_pairs_known : incl (matchedPairs (app w)) POKEMON_IDS;
  inv_over :
    gameOver (app w) = true ->
    List.length (matchedPairs (app w)) = List.length POKEMON_IDS;
  inv_phase : phase w
}.

(** Two sorts to run the page with: one that happens to leave the array in
    place, one that happens to reverse it. *)
Definition keep_order (l : list Card) : list Card := l.
Definition reverse_order (l : list Card) : list Card := rev l.

(** The world after the given turns on a page mounted with [keep_order];
    the mounted world itself where a turn is not possible. *)
Definition play (es : list Event) : World :=
  match run (mounted keep_order) es with
  | Some w => w
  | None => mounted keep_order
  end.

(** The three states of a card the board shows (CSS classes [matched] and
    [flipped]). *)
Inductive CardState : Type := Hidden | Revealed | Matched.

Definition stateOf (c : Card) : CardState :=
  if isMatched c then Matched
  else if isFlipped c then Revealed
  else Hidden.

(** *** What holds of every world of the page, New Game included *)

(** A board of the sixteen dealt cards: every id once, every card with the
    symbol dealt to its id. *)
Definition whole_deck (cs : list Card) : Prop :=
  Permutation (List.map id cs) (seq 0 (List.length pokemonPairs)) /\
  Forall from_deal cs.

(** The board a timer callback captured and will write back. *)
Definition captured (t : Timer) : list Card :=
  match t with
  | MarkMatched updatedCards _ _ => updatedCards
  | FlipBack updatedCards _ => updatedCards
  end.

Record page_inv (w : World) : Prop := mkPageInv {
  page_deck : whole_deck (cards (app w));
  page_timers : Forall (fun t => whole_deck (captured t)) (pending w);
  page_turned :
    forall x, In x (flippedCards (app w)) ->
      x < List.length pokemonPairs /\
      forall c, In c (cards (app w)) -> id c = x -> isFlipped c = true;
  page_distinct : NoDup (flippedCards (app w));
  page_pairs : NoDup (matchedPairs (app w));
  page_pairs_known : incl (matchedPairs (app w)) POKEMON_IDS;
  page_score : score (app w) = 10 * List.length (matchedPairs (app w));
  page_tries : List.length (matchedPairs (app w)) <= tries (app w)
}.

(** *** More of what holds of the worlds of one game *)

(** How the [isMatched] flags follow [matchedPairs]: a matched card has its
    symbol there; a symbol there has its cards matched, but for the pair
    whose marking timer is still pending; and once the game is over no
    timer is pending. *)
Record marked_inv (w : World) : Prop := mkMarkedInv {
  marked_listed :
    forall c, In c (cards (app w)) -> isMatched c = true ->
              In (pokemonId c) (matchedPairs (app w));
  listed_marked :
    forall c, In c (cards (app w)) ->
              In (pokemonId c) (matchedPairs (app w)) ->
              isMatched c = true \/
              exists uc fc nmp,
                pending w = [MarkMatched uc fc nmp] /\
                pokemonId c = pokemonId fc;
  marking_listed :
    forall uc fc nmp, In (MarkMatched uc fc nmp) (pending w) ->
                      In (pokemonId fc) (matchedPairs (app w));
  over_idle : gameOver (app w) = true -> pending w = []
}.

(** The card shows its face and is not matched. *)
Definition is_revealed (c : Card) : bool :=
  isFlipped c && negb (isMatched c).

(** The revealed cards are those named in [flippedCards]; and while the
    timer that marks a match is pending, the cards named there carry the
    symbol it will mark. *)
Record revealed_inv (w : World) : Prop := mkRevealedInv {
  revealed_listed :
    forall c, In c (cards (app w)) -> is_revealed c = true ->
              In (id c) (flippedCards (app w));
  listed_symbol :
    forall uc fc nmp, pending w = [MarkMatched uc fc nmp] ->
      forall c, In c (cards (app w)) -> In (id c) (flippedCards (app w)) ->
                pokemonId c = pokemonId fc
}.

(** The turns of a game played pair by pair on a board in dealt order. *)
Definition whole_game : list Event :=
  [Click 0; Click 8; Fire 0; Click 1; Click 9; Fire 0;
   Click 2; Click 10; Fire 0; Click 3; Click 11; Fire 0;
   Click 4; Click 12; Fire 0; Click 5; Click 13; Fire 0;
   Click 6; Click 14; Fire 0; Click 7; Click 15; Fire 0].

(** The number of timer callbacks among the turns. *)
Fixpoint fired (es : list Event) : nat :=
  match es with
  | [] => 0
  | Fire _ :: rest => S (fired rest)
  | _ :: rest => fired rest
  end.

End App.

(* ================================================================== *)
(** ** The server: backend/server.js *)
(* ================================================================== *)

Module Server.

(** What a column of the SQLite table can hold: the storage classes NULL,
    INTEGER and TEXT (REAL and BLOB values are left out). *)
Inductive SqlValue : Type :=
| SqlNull
| SqlInt (n : Z)
| SqlText (s : string).

(** A row of [game_results]. *)
Record Row : Type := mkRow {
  id : Z;
  player_name : SqlValue;
  score : SqlValue;
  tries : SqlValue;
  matches : SqlValue;
  created_at : string
}.

(** The database file: the table in rowid order, and the counter that
    [AUTOINCREMENT] keeps of the largest rowid ever handed out. *)
Record Db : Type := mkDb {
  game_results : list Row;
  sqlite_sequence : Z
}.

Definition emptyDb : Db := mkDb [] 0.

(** The rowid [AUTOINCREMENT] gives the next row: one more than the largest
    ever used. *)
Definition next_rowid (db : Db) : Z :=
  1 + fold_right Z.max (sqlite_sequence db) (List.map id (game_results db)).

(** The order SQLite sorts values in: NULL first, then numbers, then text
    (compared byte by byte). *)
Definition sql_compare (a b : SqlValue) : comparison :=
  match a, b with
  | SqlNull, SqlNull => Eq
  | SqlNull, _ => Lt
  | _, SqlNull => Gt
  | SqlInt x, SqlInt y => Z.compare x y
  | SqlInt _, SqlText _ => Lt
  | SqlText _, SqlInt _ => Gt
  | SqlText s, SqlText t => String.compare s t
  end.

(** [ORDER BY score DESC, tries ASC]: [true] when [r1] may stand before
    [r2]. *)
Definition ranks_before (r1 r2 : Row) : bool :=
  match sql_compare (score r1) (score r2) with
  | Gt => true
  | Lt => false
  | Eq => match sql_compare (tries r1) (tries r2) with
          | Gt => false
          | _ => true
          end
  end.

(** Rows that tie on both keys keep their table order. *)
Fixpoint insert_ranked (r : Row) (sorted : list Row) : list Row :=
  match sorted with
  | [] => [r]
  | x :: rest =>
    if ranks_before r x then r :: sorted else x :: insert_ranked r rest
  end.

Definition order_by_score_desc_tries_asc (rows : list Row) : list Row :=
  fold_right insert_ranked [] rows.

(** Every row stands before all the rows after it. *)
Definition ranked : list Row -> Prop :=
  StronglySorted (fun r1 r2 => ranks_before r1 r2 = true).

(** [LIMIT n] *)
Definition limit (n : nat) (rows : list Row) : list Row := firstn n rows.

(** [SELECT * FROM game_results ORDER BY score DESC, tries ASC LIMIT 10] *)
Definition select_leaderboard (db : Db) : list Row :=
  limit 10 (order_by_score_desc_tries_asc (game_results db)).

(** The affinities a column can be declared with here. *)
Inductive Affinity : Type := AffText | AffInteger.

(** The columns the INSERT fills. *)
Inductive Column : Type := PlayerName | Score | Tries | Matches.

(** [CREATE TABLE game_results (..., player_name TEXT, score INTEGER,
     tries INTEGER, matches INTEGER, ...)] *)
Definition declared (c : Column) : Affinity :=
  match c with
  | PlayerName => AffText
  | Score | Tries | Matches => AffInteger
  end.

(** [INSERT INTO game_results (player_name, score, tries, matches)
     VALUES (?, ?, ?, ?)]: [id] and [created_at] take their defaults, and
    each bound value is stored as the affinity of its column makes it;
    [affinity] is that conversion of the engine. *)
Definition insert_result (affinity : Affinity -> SqlValue -> SqlValue)
           (now : string) (db : Db)
           (p_name p_score p_tries p_matches : SqlValue) : Db * Z :=
  let rowid := next_rowid db in
  (mkDb (game_results db
           ++ [mkRow rowid
                     (affinity (declared PlayerName) p_name)
                     (affinity (declared Score) p_score)
                     (affinity (declared Tries) p_tries)
                     (affinity (declared Matches) p_matches)
                     now])
        rowid,
   rowid).

(** What [res.status(..).json(..)] sends. *)
Inductive Payload : Type :=
| Object (props : list (string * JsValue))
| Rows (rows : list Row).

Record Response : Type := mkResponse {
  status : nat;
  payload : Payload
}.

Section Routes.

(** How the sqlite3 driver turns a JavaScript parameter into the value it
    binds, and how the engine converts a bound value for a column of a
    given affinity. *)
Variable bind : JsValue -> SqlValue.
Variable affinity : Affinity -> SqlValue -> SqlValue.

(** [fault] is the error the driver reports to the callback, if any;
    [now] is the clock [CURRENT_TIMESTAMP] reads. *)
Variable fault : option jsstring.
Variable now : string.

(** [app.post('/api/results', ...)] *)
Definition post_results (db : Db) (body : list (string * JsValue))
  : Db * Response :=
  let player_name := prop "player_name" body in
  let score := prop "score" body in
  let tries := prop "tries" body in
  let matches := prop "matches" body in
  if negb (truthy player_name)
     || is_undefined score || is_undefined tries || is_undefined matches
  then
    (db, mkResponse 400
           (Object [("error"%string,
                     JStr (str "Missing required fields"))]))
  else
    match fault with
    | Some message =>
      (db, mkResponse 500 (Object [("error"%string, JStr message)]))
    | None =>
      let '(db', lastID) :=
        insert_result affinity now db
          (bind (js_or player_name (JStr (str "Anonymous"))))
          (bind score) (bind tries) (bind matches) in
      (db', mkResponse 200
              (Object [("id"%string, JNum lastID);
                       ("player_name"%string,
                          js_or player_name (JStr (str "Anonymous")));
                       ("score"%string, score);
                       ("tries"%string, tries);
                       ("matches"%string, matches);
                       ("message"%string,
                          JStr (str "Result saved successfully"))]))
    end.

(** [app.get('/api/leaderboard', ...)] *)
Definition get_leaderboard (db : Db) : Response :=
  match fault with
  | Some message => mkResponse 500 (Object [("error"%string, JStr message)])
  | None => mkResponse 200 (Rows (select_leaderboard db))
  end.

End Routes.

(** The shape the specification's data model gives a result (GameResult):
    a non-empty name and three numbers. *)
Definition well_shaped (body : list (string * JsValue)) : bool :=
  match prop "player_name" body, prop "score" body,
        prop "tries" body, prop "matches" body with
  | JStr (_ :: _), JNum _, JNum _, JNum _ => true
  | _, _, _, _ => false
  end.

(** A binding to run the handlers with: [null] to NULL, booleans and
    numbers to INTEGER, strings (read as bytes) to TEXT, anything else to
    its string form. *)
Definition bind_bytes (v : JsValue) : SqlValue :=
  match v with
  | JUndefined | JNull => SqlNull
  | JBool b => SqlInt (if b then 1 else 0)
  | JNum n => SqlInt n
  | JStr s => SqlText (string_of_list_ascii (List.map ascii_of_N s))
  | JObject _ => SqlText "[object Object]"
  end.

(** A conversion to run the handlers with: in a TEXT column an integer
    becomes its decimal text; in an INTEGER column a text of decimal
    digits, with or without a minus sign before them, becomes that
    integer; every other value is kept. *)
Definition affinity_digits (a : Affinity) (v : SqlValue) : SqlValue :=
  match a, v with
  | AffText, SqlInt n => SqlText (NilZero.string_of_int (Z.to_int n))
  | AffInteger, SqlText s =>
    match NilZero.int_of_string s with
    | Some n => SqlInt (Z.of_int n)
    | None => SqlText s
    end
  | _, _ => v
  end.

(** The stored results of the leaderboard example: score 50 in 4 tries,
    score 50 in 2 tries, score 30 in 1 try. *)
Definition ash : Row :=
  mkRow 1 (SqlText "Ash") (SqlInt 50) (SqlInt 4) (SqlInt 9)
        "2024-01-01 10:00:00".
Definition misty : Row :=
  mkRow 2 (SqlText "Misty") (SqlInt 50) (SqlInt 2) (SqlInt 9)
        "2024-01-01 10:05:00".
Definition brock : Row :=
  mkRow 3 (SqlText "Brock") (SqlInt 30) (SqlInt 1) (SqlInt 9)
        "2024-01-01 10:10:00".

Definition example_rows : list Row := [ash; misty; brock].

(** A request whose numbers are not numbers. *)
Definition misshapen_body : list (string * JsValue) :=
  [ ("player_name"%string, JStr (str "Ash"));
    ("score"%string, JStr (str "high"));
    ("tries"%string, JNull);
    ("matches"%string, JBool true) ].

(** A request whose four values are the same string of digits. *)
Definition digits_body : list (string * JsValue) :=
  [ ("player_name"%string, JStr (str "50"));
    ("score"%string, JStr (str "50"));
    ("tries"%string, JStr (str "50"));
    ("matches"%string, JStr (str "50")) ].

(** A request of a game that scored nothing. *)
Definition zero_body : list (string * JsValue) :=
  [ ("player_name"%string, JStr (str "Ash"));
    ("score"%string, JNum 0);
    ("tries"%string, JNum 0);
    ("matches"%string, JNum 0) ].

(** A request with an empty name. *)
Definition nameless_body : list (string * JsValue) :=
  [ ("player_name"%string, JStr []);
    ("score"%string, JNum 80);
    ("tries"%string, JNum 12);
    ("matches"%string, JNum 9) ].

(** The test the handler makes before it stores anything. *)
Definition missing_fields (body : list (string * JsValue)) : bool :=
  negb (truthy (prop "player_name" body))
  || is_undefined (prop "score" body)
  || is_undefined (prop "tries" body)
  || is_undefined (prop "matches" body).

(** The keys of the row a response carries. *)
Definition payload_has (key : string) (p : Payload) : bool :=
  match p with
  | Object props => has_prop key props
  | Rows _ => false
  end.

(** *** The recent results *)

(** [ORDER BY created_at DESC]: [true] when [r1] may stand before [r2].
    The column holds the text [CURRENT_TIMESTAMP] gave it. *)
Definition newer_first (r1 r2 : Row) : bool :=
  match String.compare (created_at r1) (created_at r2) with
  | Lt => false
  | _ => true
  end.

Section OrderBy.

(** A sort by a test that tells when a row may stand before another; rows
    that tie keep their table order. *)
Variable before : Row -> Row -> bool.

Fixpoint insert_by (r : Row) (sorted : list Row) : list Row :=
  match sorted with
  | [] => [r]
  | x :: rest => if before r x then r :: sorted else x :: insert_by r rest
  end.

Definition order_by (rows : list Row) : list Row :=
  fold_right insert_by [] rows.

Definition in_order : list Row -> Prop :=
  StronglySorted (fun r1 r2 => before r1 r2 = true).

End OrderBy.

(** [SELECT * FROM game_results ORDER BY created_at DESC LIMIT 50] *)
Definition select_recent (db : Db) : list Row :=
  limit 50 (order_by newer_first (game_results db)).

(** [app.get('/api/results', ...)] *)
Definition get_results (fault : option jsstring) (db : Db) : Response :=
  match fault with
  | Some message => mkResponse 500 (Object [("error"%string, JStr message)])
  | None => mkResponse 200 (Rows (select_recent db))
  end.

(** *** A sequence of POST requests *)

(** A request as the handler meets it: the body, the clock at that moment
    and the fault of the storage, if any. *)
Record Request : Type := mkRequest {
  req_body : list (string * JsValue);
  req_now : string;
  req_fault : option jsstring
}.

(** The request gets a row. *)
Definition accepted (rq : Request) : bool :=
  negb (missing_fields (req_body rq))
  && match req_fault rq with None => true | Some _ => false end.

(** The database after the requests, served one after the other. *)
Definition serve_posts (bind : JsValue -> SqlValue)
           (affinity : Affinity -> SqlValue -> SqlValue) (db : Db)
           (rqs : list Request) : Db :=
  fold_left
    (fun d rq =>
       fst (post_results bind affinity (req_fault rq) (req_now rq) d
                         (req_body rq)))
    rqs db.

(** No row has an id above the counter of [AUTOINCREMENT]. *)
Definition ids_counted (db : Db) : Prop :=
  Forall (fun r => (id r <= sqlite_sequence db)%Z) (game_results db).

(** The ids [first], [first + 1], ... of [n] rows. *)
Fixpoint ids_from (first : Z) (n : nat) : list Z :=
  match n with
  | O => []
  | S n' => first :: ids_from (first + 1) n'
  end.

End Server.

(* ================================================================== *)
(** ** Facts about the deal *)
(* ================================================================== *)

Module Deal.
Import App.

Lemma map_id_mapi (l : list nat) (k : nat) :
  List.map id (mapi newCard k l) = seq k (List.length l).
Proof.
  revert k; induction l as [|p l IH]; intro k; simpl; [reflexivity|].
  now rewrite IH.
Qed.

Lemma map_pokemonId_mapi (l : list nat) (k : nat) :
  List.map pokemonId (mapi newCard k l) = l.
Proof.
  revert k; induction l as [|p l IH]; intro k; simpl; [reflexivity|].
  now rewrite IH.
Qed.

(** A dealt card is the one [newCard] made at the index its id names. *)
Lemma mapi_newCard_inv (l : list nat) (k : nat) (c : Card) :
  In c (mapi newCard k l) ->
  k <= id c < k + List.length l /\ c = newCard (nth (id c - k) l 0) (id c).
Proof.
  revert k; induction l as [|p l IH]; intro k; simpl; [tauto|].
  intros [<-|Hin].
  - simpl. rewrite Nat.sub_diag. split; [lia|reflexivity].
  - destruct (IH _ Hin) as [Hr Hc]. split; [lia|].
    replace (id c - k) with (S (id c - S k)) by lia. exact Hc.
Qed.

Lemma dealt_ids : List.map id dealt = seq 0 (2 * List.length POKEMON_IDS).
Proof. unfold dealt. rewrite map_id_mapi. reflexivity. Qed.

Lemma dealt_symbols : List.map pokemonId dealt = pokemonPairs.
Proof. apply map_pokemonId_mapi. Qed.

Lemma dealt_card (c : Card) :
  In c dealt ->
  id c < 2 * List.length POKEMON_IDS /\
  c = newCard (nth (id c) pokemonPairs 0) (id c).
Proof.
  intro Hin. apply mapi_newCard_inv in Hin. rewrite Nat.sub_0_r in Hin.
  destruct Hin as [Hr Hc]. split; [|exact Hc].
  change (List.length pokemonPairs) with (2 * List.length POKEMON_IDS) in Hr.
  lia.
Qed.

Lemma POKEMON_IDS_NoDup : NoDup POKEMON_IDS.
Proof.
  unfold POKEMON_IDS.
  repeat (constructor; [simpl; intros H; repeat destruct H as [H|H]; try discriminate H; exact H|]).
  constructor.
Qed.

(** In [l ++ l] with [l] free of repeats, every member occurs twice. *)
Lemma count_occ_doubled (l : list nat) (p : nat) :
  NoDup l -> In p (l ++ l) -> count_occ Nat.eq_dec (l ++ l) p = 2.
Proof.
  intros Hnd Hin. rewrite count_occ_app.
  assert (Hp : In p l) by (apply in_app_or in Hin; tauto).
  rewrite (proj1 (NoDup_count_occ' Nat.eq_dec l) Hnd p Hp). reflexivity.
Qed.

Lemma cards_initializeGame sort s :
  cards (initializeGame sort s) = sort dealt.
Proof. reflexivity. Qed.

End Deal.

(* ================================================================== *)
(** ** The board: starting a game *)
(* ================================================================== *)

Module Board.
Import App Deal.

Lemma dealt_position (i : nat) (c : Card) :
  nth_error dealt i = Some c -> id c = i.
Proof.
  intro H.
  assert (Hm : nth_error (List.map id dealt) i = Some (id c))
    by (rewrite nth_error_map, H; reflexivity).
  rewrite dealt_ids, nth_error_seq in Hm.
  destruct (Nat.ltb_spec i (2 * List.length POKEMON_IDS)); [|discriminate].
  now injection Hm.
Qed.

(** C3. A newly initialized game has exactly [2 * POKEMON_IDS.length] cards,
    every symbol on the board is carried by exactly two of them, and all
    cards lie face down. *)
Theorem initializeGame_two_of_each sort s :
  rearranges sort ->
  let board := cards (initializeGame sort s) in
  List.length board = 2 * List.length POKEMON_IDS /\
  (forall p, In p (List.map pokemonId board) ->
             count_occ Nat.eq_dec (List.map pokemonId board) p = 2) /\
  Forall (fun c => stateOf c = Hidden) board.
Proof.
  intros Hsort board. subst board. rewrite cards_initializeGame.
  pose proof (Hsort dealt) as Hp.
  assert (Hsym : Permutation pokemonPairs (List.map pokemonId (sort dealt))).
  { rewrite <- dealt_symbols. now apply Permutation_map. }
  split; [|split].
  - rewrite <- (Permutation_length Hp). reflexivity.
  - intros p Hin.
    rewrite <- (proj1 (Permutation_count_occ Nat.eq_dec _ _) Hsym).
    apply count_occ_doubled; [apply POKEMON_IDS_NoDup|].
    apply Permutation_in with (1 := Permutation_sym Hsym). exact Hin.
  - apply Forall_forall. intros c Hin.
    apply Permutation_in with (1 := Permutation_sym Hp) in Hin.
    apply dealt_card in Hin. destruct Hin as [_ ->]. reflexivity.
Qed.

Lemma keep_order_rearranges : rearranges keep_order.
Proof. intro l. apply Permutation_refl. Qed.

Lemma reverse_order_rearranges : rearranges reverse_order.
Proof. intro l. apply Permutation_rev. Qed.

Lemma initializeGame_two_of_each_witness :
  let board := cards (initializeGame reverse_order initialState) in
  List.length board = 2 * List.length POKEMON_IDS /\
  (forall p, In p (List.map pokemonId board) ->
             count_occ Nat.eq_dec (List.map pokemonId board) p = 2) /\
  Forall (fun c => stateOf c = Hidden) board.
Proof.
  apply (initializeGame_two_of_each reverse_order initialState
           reverse_order_rearranges).
Defined.

(** Against C7 as stated: when the sort reverses the array, the card at
    position 0 carries id 15. *)
Lemma id_is_not_position :
  ~ (forall sort s, rearranges sort ->
       forall i c, nth_error (cards (initializeGame sort s)) i = Some c ->
                   id c = i).
Proof.
  intro H.
  specialize (H reverse_order initialState reverse_order_rearranges
                0 (newCard 133 15) eq_refl).
  discriminate H.
Qed.

(** C7, amended. The ids are given before the shuffle and move with the
    cards: after [initializeGame] the ids on the board are 0 .. 15, each
    once, in the order the sort left; the card of id [i] is the one created
    at index [i] of [pokemonPairs]; and [cards[i].id == i] holds at every
    index exactly when the sort left the array as it was dealt. *)
Theorem initializeGame_ids_move_with_cards sort s :
  rearranges sort ->
  let board := cards (initializeGame sort s) in
  Permutation (List.map id board) (seq 0 (2 * List.length POKEMON_IDS)) /\
  (forall c, In c board -> c = newCard (nth (id c) pokemonPairs 0) (id c)) /\
  ((forall i c, nth_error board i = Some c -> id c = i) <-> board = dealt).
Proof.
  intros Hsort board. subst board. rewrite cards_initializeGame.
  pose proof (Hsort dealt) as Hp.
  assert (Hcard : forall c, In c (sort dealt) ->
            c = newCard (nth (id c) pokemonPairs 0) (id c)).
  { intros c Hin. apply Permutation_in with (1 := Permutation_sym Hp) in Hin.
    now apply dealt_card in Hin. }
  split; [|split].
  - rewrite <- dealt_ids. apply Permutation_sym. now apply Permutation_map.
  - exact Hcard.
  - split.
    + intro Hpos. apply nth_error_ext. intro n.
      destruct (nth_error (sort dealt) n) as [c|] eqn:Hc;
        destruct (nth_error dealt n) as [d|] eqn:Hd.
      * pose proof (Hpos _ _ Hc) as Hic. pose proof (dealt_position _ _ Hd) as Hid.
        rewrite (Hcard c (nth_error_In _ _ Hc)).
        rewrite (proj2 (dealt_card _ (nth_error_In _ _ Hd))) at 1.
        now rewrite Hic, Hid.
      * apply nth_error_None in Hd.
        assert (n < List.length (sort dealt))
          by (apply nth_error_Some; congruence).
        rewrite <- (Permutation_length Hp) in *. lia.
      * apply nth_error_None in Hc.
        assert (n < List.length dealt) by (apply nth_error_Some; congruence).
        rewrite <- (Permutation_length Hp) in *. lia.
      * reflexivity.
    + intros -> i c. apply dealt_position.
Qed.

Lemma initializeGame_ids_move_with_cards_witness :
  let board := cards (initializeGame reverse_order initialState) in
  Permutation (List.map id board) (seq 0 (2 * List.length POKEMON_IDS)) /\
  (forall c, In c board -> c = newCard (nth (id c) pokemonPairs 0) (id c)) /\
  ((forall i c, nth_error board i = Some c -> id c = i) <-> board = dealt).
Proof.
  apply (initializeGame_ids_move_with_cards reverse_order initialState
           reverse_order_rearranges).
Defined.

End Board.

(* ================================================================== *)
(** ** The board: one click, one timer *)
(* ================================================================== *)

Module Handlers.
Import App Deal.

Lemma findCard_some cardId cs c :
  findCard cardId cs = Some c -> In c cs /\ id c = cardId.
Proof.
  intro H. apply find_some in H. destruct H as [Hin Heq].
  split; [exact Hin|]. now apply Nat.eqb_eq.
Qed.

Lemma findCard_rendered cardId cs :
  In cardId (List.map id cs) -> exists c, findCard cardId cs = Some c.
Proof.
  intro Hin. destruct (findCard cardId cs) as [c|] eqn:Hf; [now exists c|].
  apply in_map_iff in Hin. destruct Hin as [c [Hid Hc]].
  pose proof (find_none _ _ Hf c Hc) as Hn. simpl in Hn.
  rewrite Hid, Nat.eqb_refl in Hn. discriminate.
Qed.

(** With ids free of repeats, [find] returns the card of that id. *)
Lemma findCard_unique cardId cs c :
  NoDup (List.map id cs) -> In c cs -> id c = cardId ->
  findCard cardId cs = Some c.
Proof.
  induction cs as [|d cs IH]; simpl; intros Hnd Hin Hid; [tauto|].
  inversion Hnd as [|? ? Hnotin Hnd']; subst.
  destruct Hin as [->|Hin].
  - unfold findCard. simpl. now rewrite Nat.eqb_refl.
  - unfold findCard. simpl. destruct (Nat.eqb_spec (id d) (id c)) as [E|E].
    + exfalso. apply Hnotin. rewrite E. now apply in_map.
    + now apply IH.
Qed.

Lemma findCard_map (f : Card -> Card) cardId cs :
  (forall c, id (f c) = id c) ->
  findCard cardId (List.map f cs) = option_map f (findCard cardId cs).
Proof.
  intro Hf. unfold findCard.
  induction cs as [|d cs IH]; simpl; [reflexivity|].
  rewrite Hf. destruct (id d =? cardId); [reflexivity|exact IH].
Qed.

Lemma map_id_flipUp cardId cs : List.map id (flipUp cardId cs) = List.map id cs.
Proof.
  unfold flipUp. rewrite map_map. apply map_ext. intro c.
  now destruct (id c =? cardId).
Qed.

Lemma map_id_markSymbol fc cs : List.map id (markSymbol fc cs) = List.map id cs.
Proof.
  unfold markSymbol. rewrite map_map. apply map_ext. intro c.
  now destruct (pokemonId c =? pokemonId fc).
Qed.

Lemma map_id_flipDown ids cs : List.map id (flipDown ids cs) = List.map id cs.
Proof.
  unfold flipDown. rewrite map_map. apply map_ext. intro c.
  now destruct (includes (id c) ids).
Qed.

Lemma findCard_flipUp cardId cs card :
  findCard cardId cs = Some card ->
  findCard cardId (flipUp cardId cs) = Some (with_isFlipped true card).
Proof.
  intro H. unfold flipUp. rewrite findCard_map.
  - rewrite H. simpl. apply findCard_some in H. destruct H as [_ ->].
    now rewrite Nat.eqb_refl.
  - intro c. now destruct (id c =? cardId).
Qed.

Lemma includes_In x xs : includes x xs = true <-> In x xs.
Proof.
  unfold includes. rewrite existsb_exists. split.
  - intros [y [Hin Heq]]. apply Nat.eqb_eq in Heq. now subst.
  - intro Hin. exists x. split; [exact Hin|apply Nat.eqb_refl].
Qed.

Lemma includes_not_In x xs : includes x xs = false <-> ~ In x xs.
Proof.
  rewrite <- includes_In. destruct (includes x xs); split; congruence.
Qed.

(** The handler, with its pieces named. *)
Lemma handleCardClick_eq s cardId :
  handleCardClick s cardId =
  match findCard cardId (cards s) with
  | None => Threw s
  | Some card =>
    if ignores s card then Returned s []
    else
      let nf := flippedCards s ++ [cardId] in
      let s2 := setCards (flipUp cardId (cards s)) (setFlippedCards nf s) in
      if List.length nf =? 2 then
        let s3 := setTries (tries s + 1) s2 in
        match findCard (nth 0 nf 0) (cards s),
              findCard (nth 1 nf 0) (flipUp cardId (cards s)) with
        | Some firstCard, Some secondCard =>
          if pokemonId firstCard =? pokemonId secondCard then
            Returned
              (setScore (score s + 10)
                 (setMatchedPairs (matchedPairs s ++ [pokemonId firstCard]) s3))
              [MarkMatched (flipUp cardId (cards s)) firstCard
                           (matchedPairs s ++ [pokemonId firstCard])]
          else Returned s3 [FlipBack (flipUp cardId (cards s)) nf]
        | _, _ => Threw s3
        end
      else Returned s2 []
  end.
Proof. reflexivity. Qed.

(** A click on a card the guard lets through, when no card is turned. *)
Lemma click_first s cardId card :
  findCard cardId (cards s) = Some card ->
  ignores s card = false ->
  List.length (flippedCards s) <> 1 ->
  handleCardClick s cardId =
  Returned (setCards (flipUp cardId (cards s))
              (setFlippedCards (flippedCards s ++ [cardId]) s)) [].
Proof.
  intros Hf Hg Hlen. rewrite handleCardClick_eq, Hf, Hg. cbv zeta.
  rewrite length_app. simpl.
  destruct (Nat.eqb_spec (List.length (flippedCards s) + 1) 2); [lia|].
  reflexivity.
Qed.

(** A click on a card the guard lets through, when card [a] is turned. *)
Lemma click_second s a cardId firstCard card :
  flippedCards s = [a] ->
  findCard a (cards s) = Some firstCard ->
  findCard cardId (cards s) = Some card ->
  ignores s card = false ->
  handleCardClick s cardId =
  let s3 := setTries (tries s + 1)
              (setCards (flipUp cardId (cards s))
                 (setFlippedCards [a; cardId] s)) in
  if pokemonId firstCard =? pokemonId card then
    Returned
      (setScore (score s + 10)
         (setMatchedPairs (matchedPairs s ++ [pokemonId firstCard]) s3))
      [MarkMatched (flipUp cardId (cards s)) firstCard
                   (matchedPairs s ++ [pokemonId firstCard])]
  else Returned s3 [FlipBack (flipUp cardId (cards s)) [a; cardId]].
Proof.
  intros Hfl Ha Hf Hg. rewrite handleCardClick_eq, Hf, Hg, Hfl. cbv zeta.
  simpl List.length. simpl nth. simpl app. rewrite Nat.eqb_refl.
  rewrite Ha, (findCard_flipUp _ _ _ Hf). reflexivity.
Qed.

(** What a click that returns has done: one of four things. *)
Lemma handleCardClick_Returned s cardId s' ts :
  handleCardClick s cardId = Returned s' ts ->
  exists card,
    findCard cardId (cards s) = Some card /\
    ( (ignores s card = true /\ s' = s /\ ts = [])
    \/ (ignores s card = false /\ List.length (flippedCards s) <> 1 /\
        s' = setCards (flipUp cardId (cards s))
               (setFlippedCards (flippedCards s ++ [cardId]) s) /\
        ts = [])
    \/ (ignores s card = false /\
        exists a firstCard,
          flippedCards s = [a] /\
          findCard a (cards s) = Some firstCard /\
          let s3 := setTries (tries s + 1)
                      (setCards (flipUp cardId (cards s))
                         (setFlippedCards [a; cardId] s)) in
          ( (pokemonId firstCard = pokemonId card /\
             s' = setScore (score s + 10)
                    (setMatchedPairs
                       (matchedPairs s ++ [pokemonId firstCard]) s3) /\
             ts = [MarkMatched (flipUp cardId (cards s)) firstCard
                               (matchedPairs s ++ [pokemonId firstCard])])
          \/ (pokemonId firstCard <> pokemonId card /\
              s' = s3 /\
              ts = [FlipBack (flipUp cardId (cards s)) [a; cardId]])))).
Proof.
  intro H. destruct (findCard cardId (cards s)) as [card|] eqn:Hf.
  2:{ rewrite handleCardClick_eq, Hf in H. discriminate. }
  exists card. split; [reflexivity|].
  destruct (ignores s card) eqn:Hg.
  - left. rewrite handleCardClick_eq, Hf, Hg in H. now inversion H.
  - right. destruct (Nat.eq_dec (List.length (flippedCards s)) 1) as [E|E].
    + right. split; [reflexivity|].
      destruct (flippedCards s) as [|a [|b l]] eqn:Hfl; try discriminate E.
      destruct (findCard a (cards s)) as [firstCard|] eqn:Ha.
      * exists a, firstCard. split; [reflexivity|]. split; [exact Ha|].
        rewrite (click_second s a cardId firstCard card Hfl Ha Hf Hg) in H. cbv zeta in *.
        destruct (Nat.eqb_spec (pokemonId firstCard) (pokemonId card)).
        -- left. now inversion H.
        -- right. now inversion H.
      * rewrite handleCardClick_eq, Hf, Hg, Hfl in H. cbv zeta in H.
        simpl List.length in H. simpl nth in H. simpl app in H.
        rewrite Nat.eqb_refl, Ha in H. discriminate.
    + left. rewrite (click_first s cardId card Hf Hg E) in H. now inversion H.
Qed.

End Handlers.

(* ================================================================== *)
(** ** The board: runs of the event loop *)
(* ================================================================== *)

Module Play.
Import App Deal Handlers Board.

Lemma steps_preserve (P : World -> Prop) :
  (forall w e w', P w -> step w e w' -> P w') ->
  forall w es w', steps w es w' -> P w -> P w'.
Proof.
  intros Hstep w es w' Hrun. induction Hrun as [|w e w1 es w2 H1 _ IH].
  - trivial.
  - intro Hw. apply IH. now apply (Hstep w e).
Qed.

Lemma steps_app w es w1 es' w2 :
  steps w es w1 -> steps w1 es' w2 -> steps w (es ++ es') w2.
Proof.
  induction 1 as [|w e wa es wb H1 _ IH]; simpl; [trivial|].
  intro H2. econstructor; [exact H1|now apply IH].
Qed.

(** [run1] and [step] describe the same turns. *)
Lemma run1_step w e w' : lawful e -> run1 w e = Some w' -> step w e w'.
Proof.
  destruct e as [cardId|k|sort|name|]; simpl; intros Hl H.
  - destruct (includes cardId (List.map id (cards (app w)))) eqn:Hin;
      [|discriminate].
    destruct (handleCardClick (app w) cardId) as [s' ts|] eqn:Hc;
      [|discriminate].
    injection H as <-. apply step_click; [now apply includes_In|exact Hc].
  - destruct (nth_error (pending w) k) as [t|] eqn:Hk; [|discriminate].
    injection H as <-. now apply step_fire.
  - injection H as <-. now apply step_new.
  - injection H as <-. apply step_name.
  - injection H as <-. apply step_saved.
Qed.

Lemma step_run1 w e w' : step w e w' -> run1 w e = Some w' /\ lawful e.
Proof.
  intro H.
  destruct H as [w cardId s' ts Hin Hc|w k t Hk|w sort Hs|w name|w]; simpl.
  - apply includes_In in Hin. now rewrite Hin, Hc.
  - now rewrite Hk.
  - now split.
  - now split.
  - now split.
Qed.

Lemma run_steps w es w' :
  Forall lawful es -> run w es = Some w' -> steps w es w'.
Proof.
  intro Hl. revert w. induction Hl as [|e es He _ IH]; simpl; intros w H.
  - injection H as <-. constructor.
  - destruct (run1 w e) as [w1|] eqn:H1; [|discriminate].
    econstructor; [apply (run1_step _ _ _ He H1)|now apply IH].
Qed.

(** The turns of [play] are turns of the page. *)
Lemma play_reachable es :
  Forall lawful es -> run (mounted keep_order) es <> None ->
  reachable (play es).
Proof.
  intros Hl Hrun. exists keep_order, es. split; [apply keep_order_rearranges|].
  apply run_steps; [exact Hl|]. unfold play.
  destruct (run (mounted keep_order) es); congruence.
Qed.

Lemma play_in_one_game es :
  Forall in_game es -> run (mounted keep_order) es <> None ->
  in_one_game (play es).
Proof.
  intros Hg Hrun. exists keep_order, initialState, es.
  split; [apply keep_order_rearranges|]. split; [exact Hg|].
  apply run_steps.
  - eapply Forall_impl; [|exact Hg]. intros [| | | |] H; simpl in *; tauto.
  - unfold play. fold (mounted keep_order).
    destruct (run (mounted keep_order) es); congruence.
Qed.

(** Either timer callback empties [flippedCards]. *)
Lemma fire_clears t s : flippedCards (fire t s) = [].
Proof.
  destruct t as [uc fc nmp|uc nf]; unfold fire; [|reflexivity].
  now destruct (List.length nmp =? List.length POKEMON_IDS).
Qed.

(** No turn leaves more than two cards in [flippedCards]. *)
Lemma step_at_most_two w e w' :
  List.length (flippedCards (app w)) <= 2 -> step w e w' ->
  List.length (flippedCards (app w')) <= 2.
Proof.
  intros Hle H.
  destruct H as [w cardId s' ts Hin Hc|w k t Hk|w sort Hs|w name|w]; simpl.
  - apply handleCardClick_Returned in Hc.
    destruct Hc as [card [Hf [[Hg [-> ->]]|[[Hg [Hlen [-> ->]]]|[Hg Hsec]]]]].
    + exact Hle.
    + unfold ignores in Hg. rewrite !orb_false_iff in Hg.
      destruct Hg as [[_ Hl] _]. apply Nat.eqb_neq in Hl.
      cbn [flippedCards setCards setFlippedCards]. rewrite length_app.
      simpl. lia.
    + destruct Hsec as [a [firstCard [Hfl [Ha [[_ [-> _]]|[_ [-> _]]]]]]];
        simpl; lia.
  - rewrite fire_clears. simpl. lia.
  - lia.
  - exact Hle.
  - exact Hle.
Qed.

(** A click while two cards are turned changes nothing and schedules
    nothing. *)
Lemma third_click_ignored s cardId :
  List.length (flippedCards s) = 2 ->
  In cardId (List.map id (cards s)) ->
  handleCardClick s cardId = Returned s [].
Proof.
  intros Hlen Hin. destruct (findCard_rendered _ _ Hin) as [card Hf].
  rewrite handleCardClick_eq, Hf.
  assert (Hg : ignores s card = true).
  { unfold ignores. rewrite Hlen. simpl. now rewrite !orb_true_r. }
  now rewrite Hg.
Qed.

(** C4. In every world the page can reach, [flippedCards] holds at most two
    ids; and while it holds two, a click on any card of the board returns
    at once, leaving the whole world as it was (no state change, no timer
    scheduled), until a timer callback resolves the pair, which empties
    [flippedCards]. *)
Theorem at_most_two_flipped w :
  reachable w ->
  List.length (flippedCards (app w)) <= 2 /\
  (List.length (flippedCards (app w)) = 2 ->
   forall cardId, In cardId (List.map id (cards (app w))) ->
     handleCardClick (app w) cardId = Returned (app w) [] /\
     step w (Click cardId) w) /\
  (forall t, flippedCards (fire t (app w)) = []).
Proof.
  intros [sort [es [Hsort Hrun]]].
  split; [|split].
  - apply (steps_preserve (fun w => List.length (flippedCards (app w)) <= 2))
      with (2 := Hrun).
    + intros. eapply step_at_most_two; eassumption.
    + simpl. lia.
  - intros Hlen cardId Hin.
    pose proof (third_click_ignored _ _ Hlen Hin) as Hc.
    split; [exact Hc|].
    pose proof (step_click w cardId _ _ Hin Hc) as Hs.
    rewrite app_nil_r in Hs. now destruct w.
  - intro t. apply fire_clears.
Qed.

Lemma at_most_two_flipped_witness :
  let w := play [Click 0; Click 1] in
  List.length (flippedCards (app w)) <= 2 /\
  (List.length (flippedCards (app w)) = 2 ->
   forall cardId, In cardId (List.map id (cards (app w))) ->
     handleCardClick (app w) cardId = Returned (app w) [] /\
     step w (Click cardId) w) /\
  (forall t, flippedCards (fire t (app w)) = []).
Proof.
  apply (at_most_two_flipped (play [Click 0; Click 1])).
  apply play_reachable.
  - repeat constructor.
  - vm_compute. discriminate.
Defined.

(** *** The invariant of one game *)

Lemma same_id_same_card cs c d :
  NoDup (List.map id cs) -> In c cs -> In d cs -> id c = id d -> c = d.
Proof.
  induction cs as [|e cs IH]; simpl; intros Hnd Hc Hd Hid; [tauto|].
  inversion Hnd as [|? ? Hnotin Hnd']; subst.
  destruct Hc as [->|Hc], Hd as [->|Hd].
  - reflexivity.
  - exfalso. apply Hnotin. rewrite Hid. now apply in_map.
  - exfalso. apply Hnotin. rewrite <- Hid. now apply in_map.
  - now apply IH.
Qed.

(** A symbol sits at two indices of [pokemonPairs] and no third. *)
Lemma symbol_on_two_cards i j k :
  i < List.length pokemonPairs -> j < List.length pokemonPairs ->
  k < List.length pokemonPairs ->
  nth i pokemonPairs 0 = nth j pokemonPairs 0 ->
  nth k pokemonPairs 0 = nth i pokemonPairs 0 ->
  i <> j -> k = i \/ k = j.
Proof.
  intros Hi Hj Hk Hij Hki Hne.
  assert (H : forallb (fun i => forallb (fun j => forallb (fun k =>
            implb ((nth i pokemonPairs 0 =? nth j pokemonPairs 0)
                   && (nth k pokemonPairs 0 =? nth i pokemonPairs 0)
                   && negb (i =? j))
                  ((k =? i) || (k =? j)))
            (seq 0 (List.length pokemonPairs)))
            (seq 0 (List.length pokemonPairs)))
            (seq 0 (List.length pokemonPairs)) = true)
    by (vm_compute; reflexivity).
  rewrite forallb_forall in H.
  specialize (H i (proj2 (in_seq _ _ _) (conj (Nat.le_0_l _) Hi))).
  rewrite forallb_forall in H.
  specialize (H j (proj2 (in_seq _ _ _) (conj (Nat.le_0_l _) Hj))).
  rewrite forallb_forall in H.
  specialize (H k (proj2 (in_seq _ _ _) (conj (Nat.le_0_l _) Hk))).
  rewrite Hij, Hki, Hij, Nat.eqb_refl in H. simpl in H.
  apply Nat.eqb_neq in Hne. rewrite Hne in H. simpl in H.
  apply orb_true_iff in H. destruct H as [H|H]; apply Nat.eqb_eq in H; tauto.
Qed.

Lemma third_card_of_symbol c ca cb :
  from_deal c -> from_deal ca -> from_deal cb ->
  pokemonId ca = pokemonId cb -> pokemonId c = pokemonId ca ->
  id ca <> id cb -> id c = id ca \/ id c = id cb.
Proof.
  intros [Hc Hpc] [Ha Hpa] [Hb Hpb] Hab Hca Hne.
  apply symbol_on_two_cards; congruence.
Qed.

Lemma symbol_known c : from_deal c -> In (pokemonId c) POKEMON_IDS.
Proof.
  intros [Hlt ->].
  pose proof (nth_In pokemonPairs 0 Hlt) as Hin.
  unfold pokemonPairs in Hin at 2. apply in_app_or in Hin. tauto.
Qed.

Lemma in_flipUp c' x cs :
  In c' (flipUp x cs) ->
  exists c, In c cs /\ c' = if id c =? x then with_isFlipped true c else c.
Proof.
  unfold flipUp. intro H. apply in_map_iff in H.
  destruct H as [c [<- Hin]]. now exists c.
Qed.

Lemma in_markSymbol c' fc cs :
  In c' (markSymbol fc cs) ->
  exists c, In c cs /\
    c' = if pokemonId c =? pokemonId fc then with_matched c else c.
Proof.
  unfold markSymbol. intro H. apply in_map_iff in H.
  destruct H as [c [<- Hin]]. now exists c.
Qed.

Lemma in_flipDown c' ids cs :
  In c' (flipDown ids cs) ->
  exists c, In c cs /\
    c' = if includes (id c) ids then with_isFlipped false c else c.
Proof.
  unfold flipDown. intro H. apply in_map_iff in H.
  destruct H as [c [<- Hin]]. now exists c.
Qed.

Lemma from_deal_flipUp x cs :
  Forall from_deal cs -> Forall from_deal (flipUp x cs).
Proof.
  rewrite !Forall_forall. intros H c' Hin.
  apply in_flipUp in Hin. destruct Hin as [c [Hc ->]].
  specialize (H c Hc). now destruct (id c =? x).
Qed.

Lemma from_deal_markSymbol fc cs :
  Forall from_deal cs -> Forall from_deal (markSymbol fc cs).
Proof.
  rewrite !Forall_forall. intros H c' Hin.
  apply in_markSymbol in Hin. destruct Hin as [c [Hc ->]].
  specialize (H c Hc). now destruct (pokemonId c =? pokemonId fc).
Qed.

Lemma from_deal_flipDown ids cs :
  Forall from_deal cs -> Forall from_deal (flipDown ids cs).
Proof.
  rewrite !Forall_forall. intros H c' Hin.
  apply in_flipDown in Hin. destruct Hin as [c [Hc ->]].
  specialize (H c Hc). now destruct (includes (id c) ids).
Qed.

(** Turning a card up keeps what is known of the cards already up. *)
Lemma flipUp_keeps (P : Card -> Prop) x cs :
  (forall c, P c -> P (with_isFlipped true c)) ->
  (forall c, In c cs -> P c) ->
  forall c', In c' (flipUp x cs) -> P c'.
Proof.
  intros Hup H c' Hin. apply in_flipUp in Hin. destruct Hin as [c [Hc ->]].
  destruct (id c =? x); auto.
Qed.

(** After the click the ids [ids ++ [x]] name cards that lie face up. *)
Lemma face_up_flipUp s s' x card ids :
  cards s' = flipUp x (cards s) ->
  matchedPairs s' = matchedPairs s ->
  NoDup (List.map id (cards s)) ->
  findCard x (cards s) = Some card ->
  ignores s card = false ->
  face_up_unmatched s ids ->
  face_up_unmatched s' (ids ++ [x]).
Proof.
  intros Hcs Hmp Hnd Hf Hg Hfu y Hy.
  rewrite Hcs, Hmp, map_id_flipUp.
  unfold ignores in Hg. rewrite !orb_false_iff in Hg.
  destruct Hg as [[[Hg1 Hg2] _] Hg4].
  destruct (findCard_some _ _ _ Hf) as [Hcard Hid].
  apply in_app_or in Hy. destruct Hy as [Hy|[<-|[]]].
  - destruct (Hfu y Hy) as [Hin Hall]. split; [exact Hin|].
    intros c' Hc' Hidc'. apply in_flipUp in Hc'. destruct Hc' as [c [Hc ->]].
    destruct (id c =? x); simpl in *.
    + destruct (Hall c Hc Hidc') as [_ [? ?]]. auto.
    + apply (Hall c Hc Hidc').
  - split; [rewrite <- Hid; now apply in_map|].
    intros c' Hc' Hidc'. apply in_flipUp in Hc'. destruct Hc' as [c [Hc ->]].
    destruct (Nat.eqb_spec (id c) x) as [E|E]; simpl in *.
    + assert (c = card) by (apply (same_id_same_card _ _ _ Hnd Hc Hcard); congruence).
      subst c. auto.
    + contradiction.
Qed.

Lemma game_inv_fresh sort s0 : rearranges sort -> game_inv (fresh sort s0).
Proof.
  intro Hsort. pose proof (Hsort dealt) as Hp.
  assert (Hcard : forall c, In c (sort dealt) ->
            id c < List.length pokemonPairs /\
            c = newCard (nth (id c) pokemonPairs 0) (id c)).
  { intros c Hin. apply Permutation_in with (1 := Permutation_sym Hp) in Hin.
    now apply dealt_card in Hin. }
  constructor; simpl.
  - apply Permutation_NoDup with (l := List.map id dealt).
    + now apply Permutation_map.
    + rewrite dealt_ids. apply seq_NoDup.
  - apply Forall_forall. intros c Hin. destruct (Hcard c Hin) as [Hlt Hc].
    split; [exact Hlt|]. apply (f_equal pokemonId) in Hc. exact Hc.
  - intros c Hin Hm. destruct (Hcard c Hin) as [_ Hc].
    rewrite Hc in Hm. discriminate.
  - intros c _ H. discriminate.
  - constructor.
  - intros p [].
  - discriminate.
  - unfold phase. simpl. split; [lia|]. intros x [].
Qed.

(** Name the parts of the invariant. *)
Ltac unpack_inv H :=
  destruct H as [Hids Hdeal Hmu Hsu Hpairs Hknown Hover Hphase].

(** The guard lets a click through only while no timer is pending. *)
Lemma phase_clickable w card :
  phase w -> ignores (app w) card = false ->
  pending w = [] /\
  List.length (flippedCards (app w)) <= 1 /\
  face_up_unmatched (app w) (flippedCards (app w)).
Proof.
  unfold phase, ignores. intros Hph Hg. rewrite !orb_false_iff in Hg.
  destruct Hg as [[_ Hlen] _]. apply Nat.eqb_neq in Hlen.
  destruct (pending w) as [|[uc fc nmp|uc nf] [|t2 l]]; try contradiction.
  - tauto.
  - destruct Hph as [_ [_ Hph]]. contradiction.
  - destruct Hph as [_ [_ [Hph _]]]. contradiction.
Qed.

(** While a timer is pending it is the only one. *)
Lemma phase_fire w k t :
  phase w -> nth_error (pending w) k = Some t ->
  pending w = [t] /\ k = 0.
Proof.
  unfold phase. intros Hph Hk.
  destruct (pending w) as [|t1 [|t2 l]].
  - destruct k; discriminate.
  - destruct k as [|k]; [injection Hk as ->; tauto|].
    destruct k; discriminate.
  - destruct t1; contradiction.
Qed.

Lemma game_inv_click w cardId s' ts :
  game_inv w ->
  handleCardClick (app w) cardId = Returned s' ts ->
  game_inv (mkWorld s' (pending w ++ ts)).
Proof.
  intros Hinv Hc.
  apply handleCardClick_Returned in Hc. destruct Hc as [card [Hf Hcases]].
  unpack_inv Hinv.
  assert (Hmu' : forall c', In c' (flipUp cardId (cards (app w))) ->
                   isMatched c' = true -> isFlipped c' = true).
  { apply (flipUp_keeps (fun c => isMatched c = true -> isFlipped c = true));
      [intros; reflexivity|exact Hmu]. }
  assert (Hsu' : forall c', In c' (flipUp cardId (cards (app w))) ->
                   includes (pokemonId c') (matchedPairs (app w)) = true ->
                   isFlipped c' = true).
  { apply (flipUp_keeps (fun c =>
       includes (pokemonId c) (matchedPairs (app w)) = true ->
       isFlipped c = true)); [intros; reflexivity|exact Hsu]. }
  destruct Hcases
    as [[Hig [-> ->]]
       |[[Hig [Hlen [-> ->]]]
        |[Hig [a [fc [Hfl [Ha Hsec]]]]]]].
  - (* the click is ignored *)
    rewrite app_nil_r. destruct w. now constructor.
  - (* first card of a pair *)
    destruct (phase_clickable _ _ Hphase Hig) as [Hpend [Hle Hfu]].
    rewrite Hpend. constructor; simpl; try assumption.
    + now rewrite map_id_flipUp.
    + now apply from_deal_flipUp.
    + unfold phase. simpl. split.
      * rewrite length_app. simpl. lia.
      * now apply (face_up_flipUp (app w) _ cardId card).
  - (* second card of a pair *)
    destruct (phase_clickable _ _ Hphase Hig) as [Hpend [Hle Hfu]].
    rewrite Hpend. rewrite Hfl in Hfu.
    cbv zeta in Hsec.
    destruct Hsec as [[Hsame [-> ->]]|[Hdiff [-> ->]]].
    + (* the symbols match *)
      destruct (findCard_some _ _ _ Ha) as [Hfc Hfcid].
      destruct (findCard_some _ _ _ Hf) as [Hcard Hcardid].
      destruct (Hfu a (or_introl eq_refl)) as [_ Hup].
      destruct (Hup fc Hfc Hfcid) as [Hfcup [_ Hfcsym]].
      assert (Hg := Hig). unfold ignores in Hg. rewrite !orb_false_iff in Hg.
      destruct Hg as [[[Hdown _] _] Hsym].
      assert (Hne : id fc <> id card) by (intro E;
        rewrite (same_id_same_card _ _ _ Hids Hfc Hcard E) in Hfcup;
        congruence).
      assert (Hnew : NoDup (matchedPairs (app w) ++ [pokemonId fc])).
      { apply Permutation_NoDup with (l := pokemonId fc :: matchedPairs (app w)).
        - apply Permutation_cons_append.
        - constructor; [now apply includes_not_In|exact Hpairs]. }
      assert (Hincl : incl (matchedPairs (app w) ++ [pokemonId fc]) POKEMON_IDS).
      { apply incl_app; [exact Hknown|]. intros p [<-|[]].
        apply symbol_known. rewrite Forall_forall in Hdeal. now apply Hdeal. }
      constructor; simpl; try assumption.
      * now rewrite map_id_flipUp.
      * now apply from_deal_flipUp.
      * intros c' Hc' Hin'. apply includes_In in Hin'.
        apply in_app_or in Hin'. destruct Hin' as [Hin'|[Hin'|[]]].
        -- apply Hsu'; [exact Hc'|now apply includes_In].
        -- apply in_flipUp in Hc'. destruct Hc' as [c [Hc ->]].
           destruct (Nat.eqb_spec (id c) cardId) as [E|E]; [reflexivity|].
           rewrite Forall_forall in Hdeal.
           destruct (third_card_of_symbol c fc card) as [E'|E'];
             auto; try congruence.
           apply (Hup c Hc). congruence.
      * intro Hov. specialize (Hover Hov).
        pose proof (NoDup_incl_length Hnew Hincl) as Hbound.
        rewrite length_app in Hbound.
        change (List.length [pokemonId fc]) with 1 in Hbound.
        exfalso. lia.
      * unfold phase. simpl. auto.
    + (* the symbols differ *)
      constructor; simpl; try assumption.
      * now rewrite map_id_flipUp.
      * now apply from_deal_flipUp.
      * unfold phase. simpl.
        split; [reflexivity|]. split; [reflexivity|]. split; [reflexivity|].
        apply (face_up_flipUp (app w) _ cardId card [a]); auto.
Qed.

Lemma game_inv_fire w k t :
  game_inv w -> nth_error (pending w) k = Some t ->
  game_inv (mkWorld (fire t (app w)) (remove_nth k (pending w))).
Proof.
  intros Hinv Hk.
  unpack_inv Hinv.
  destruct (phase_fire _ _ _ Hphase Hk) as [Hpend ->].
  unfold phase in Hphase. rewrite Hpend in *. simpl remove_nth.
  destruct t as [uc fc nmp|uc nf].
  - (* the pair is marked matched *)
    destruct Hphase as [-> [-> Hlen]].
    assert (Hcs : cards (fire (MarkMatched (cards (app w)) fc
                                 (matchedPairs (app w))) (app w))
                  = markSymbol fc (cards (app w))).
    { unfold fire.
      now destruct (List.length (matchedPairs (app w))
                    =? List.length POKEMON_IDS). }
    assert (Hmp : matchedPairs (fire (MarkMatched (cards (app w)) fc
                                 (matchedPairs (app w))) (app w))
                  = matchedPairs (app w)).
    { unfold fire.
      now destruct (List.length (matchedPairs (app w))
                    =? List.length POKEMON_IDS). }
    constructor; cbn [app pending]; rewrite ?Hcs, ?Hmp; try assumption.
    + now rewrite map_id_markSymbol.
    + now apply from_deal_markSymbol.
    + intros c' Hc' Hm. apply in_markSymbol in Hc'.
      destruct Hc' as [c [Hc ->]].
      destruct (pokemonId c =? pokemonId fc); [reflexivity|now apply Hmu].
    + intros c' Hc' Hin'. apply in_markSymbol in Hc'.
      destruct Hc' as [c [Hc ->]].
      destruct (pokemonId c =? pokemonId fc); [reflexivity|now apply Hsu].
    + unfold fire.
      destruct (Nat.eqb_spec (List.length (matchedPairs (app w)))
                             (List.length POKEMON_IDS)) as [E|E].
      * intros _. exact E.
      * exact Hover.
    + unfold phase. cbn [pending app]. rewrite fire_clears. simpl.
      split; [lia|]. intros x [].
  - (* the pair is turned back *)
    destruct Hphase as [-> [-> [Hlen Hfu]]].
    change (fire (FlipBack (cards (app w)) (flippedCards (app w))) (app w))
      with (setFlippedCards []
              (setCards (flipDown (flippedCards (app w)) (cards (app w)))
                 (app w))).
    constructor;
      cbn [app pending cards matchedPairs gameOver flippedCards
           setCards setFlippedCards];
      try assumption.
    + now rewrite map_id_flipDown.
    + now apply from_deal_flipDown.
    + intros c' Hc' Hm. apply in_flipDown in Hc'. destruct Hc' as [c [Hc ->]].
      destruct (includes (id c) (flippedCards (app w))) eqn:Hinc.
      * apply includes_In in Hinc. destruct (Hfu _ Hinc) as [_ Hup].
        destruct (Hup c Hc eq_refl) as [_ [Hnm _]]. simpl in Hm. congruence.
      * now apply Hmu.
    + intros c' Hc' Hin'. apply in_flipDown in Hc'. destruct Hc' as [c [Hc ->]].
      destruct (includes (id c) (flippedCards (app w))) eqn:Hinc.
      * apply includes_In in Hinc. destruct (Hfu _ Hinc) as [_ Hup].
        destruct (Hup c Hc eq_refl) as [_ [_ Hns]]. simpl in Hin'. congruence.
      * now apply Hsu.
    + unfold phase. simpl. split; [lia|]. intros x [].
Qed.

Lemma game_inv_step w e w' :
  in_game e -> game_inv w -> step w e w' -> game_inv w'.
Proof.
  intros Hg Hinv Hstep.
  destruct Hstep as [w cardId s' ts Hin Hc|w k t Hk|w sort Hs|w name|w].
  - exact (game_inv_click w cardId s' ts Hinv Hc).
  - exact (game_inv_fire w k t Hinv Hk).
  - contradiction.
  - unpack_inv Hinv. constructor; try assumption.
  - unpack_inv Hinv. constructor; try assumption.
Qed.

(** Every world of one game satisfies the invariant. *)
Lemma in_one_game_inv w : in_one_game w -> game_inv w.
Proof.
  intros [sort [s0 [es [Hsort [Hg Hrun]]]]].
  pose proof (game_inv_fresh sort s0 Hsort) as H0.
  revert Hg H0. induction Hrun as [|w e w1 es w2 H1 _ IH]; intros Hg H0.
  - exact H0.
  - inversion Hg; subst. apply IH; [assumption|].
    now apply (game_inv_step w e).
Qed.

(** In a game a click on a card of the board always returns. *)
Lemma click_returns w cardId :
  game_inv w -> In cardId (List.map id (cards (app w))) ->
  exists s' ts, handleCardClick (app w) cardId = Returned s' ts.
Proof.
  intros Hinv Hin. destruct (findCard_rendered _ _ Hin) as [card Hf].
  destruct (ignores (app w) card) eqn:Hg.
  - exists (app w), []. now rewrite handleCardClick_eq, Hf, Hg.
  - destruct (phase_clickable _ _ (inv_phase w Hinv) Hg) as [_ [Hle Hfu]].
    destruct (flippedCards (app w)) as [|a [|b l]] eqn:Hfl.
    + eexists _, _. apply (click_first _ _ card Hf Hg). rewrite Hfl.
      discriminate.
    + destruct (Hfu a (or_introl eq_refl)) as [Ha _].
      destruct (findCard_rendered _ _ Ha) as [fc Hfc].
      rewrite (click_second _ a cardId fc card Hfl Hfc Hf Hg). cbv zeta.
      destruct (pokemonId fc =? pokemonId card); eexists _, _; reflexivity.
    + simpl in Hle. lia.
Qed.

(** *** Matched cards *)

Lemma with_isFlipped_up c : isFlipped c = true -> with_isFlipped true c = c.
Proof. destruct c; simpl; now intros ->. Qed.

Lemma with_matched_matched c :
  isFlipped c = true -> isMatched c = true -> with_matched c = c.
Proof. destruct c; simpl; now intros -> ->. Qed.

Lemma with_isFlipped_round c :
  isFlipped c = false -> with_isFlipped false (with_isFlipped true c) = c.
Proof. destruct c; simpl; now intros ->. Qed.

Lemma stateOf_Matched c : stateOf c = Matched <-> isMatched c = true.
Proof.
  unfold stateOf. destruct (isMatched c), (isFlipped c); split; congruence.
Qed.

Lemma stateOf_Hidden c :
  stateOf c = Hidden <-> isFlipped c = false /\ isMatched c = false.
Proof.
  unfold stateOf. destruct (isMatched c), (isFlipped c);
    (split; [intro H; try discriminate H; auto|intros [? ?]; congruence]).
Qed.

Lemma stateOf_Revealed c :
  stateOf c = Revealed <-> isFlipped c = true /\ isMatched c = false.
Proof.
  unfold stateOf. destruct (isMatched c), (isFlipped c);
    (split; [intro H; try discriminate H; auto|intros [? ?]; congruence]).
Qed.

(** One turn of a game leaves a matched card where and as it is. *)
Lemma step_keeps_matched w e w' i c :
  game_inv w -> in_game e -> step w e w' ->
  nth_error (cards (app w)) i = Some c -> isMatched c = true ->
  nth_error (cards (app w')) i = Some c.
Proof.
  intros Hinv Hg Hstep Hi Hm.
  pose proof (inv_matched_up w Hinv c (nth_error_In _ _ Hi) Hm) as Hup.
  destruct Hstep as [w cardId s' ts Hin Hc|w k t Hk|w sort Hs|w name|w].
  - assert (Hflip : nth_error (flipUp cardId (cards (app w))) i = Some c).
    { unfold flipUp. rewrite nth_error_map, Hi. simpl.
      destruct (id c =? cardId); [|reflexivity].
      now rewrite with_isFlipped_up. }
    apply handleCardClick_Returned in Hc.
    destruct Hc as [card [Hf [[_ [-> _]]|[[_ [_ [-> _]]]|[_ Hsec]]]]].
    + exact Hi.
    + exact Hflip.
    + destruct Hsec as [a [fc [_ [_ [[_ [-> _]]|[_ [-> _]]]]]]]; exact Hflip.
  - destruct (phase_fire _ _ _ (inv_phase w Hinv) Hk) as [Hpend ->].
    pose proof (inv_phase w Hinv) as Hph. unfold phase in Hph.
    rewrite Hpend in Hph. destruct t as [uc fc nmp|uc nf].
    + destruct Hph as [-> [-> _]]. cbn [app].
      replace (cards (fire (MarkMatched (cards (app w)) fc
                              (matchedPairs (app w))) (app w)))
        with (markSymbol fc (cards (app w))).
      * unfold markSymbol. rewrite nth_error_map, Hi. simpl.
        destruct (pokemonId c =? pokemonId fc); [|reflexivity].
        now rewrite with_matched_matched.
      * unfold fire.
        now destruct (List.length (matchedPairs (app w))
                      =? List.length POKEMON_IDS).
    + destruct Hph as [-> [-> [_ Hfu]]]. cbn [app].
      change (nth_error (flipDown (flippedCards (app w)) (cards (app w))) i
              = Some c).
      unfold flipDown. rewrite nth_error_map, Hi. simpl.
      destruct (includes (id c) (flippedCards (app w))) eqn:Hinc;
        [|reflexivity].
      apply includes_In in Hinc. destruct (Hfu _ Hinc) as [_ Hall].
      destruct (Hall c (nth_error_In _ _ Hi) eq_refl) as [_ [Hnm _]].
      congruence.
  - contradiction.
  - exact Hi.
  - exact Hi.
Qed.

(** In a game begun with no timer pending, once the card at a position of
    the board is in the matched state, no later click, match resolution or
    flip-back changes it: after any further turns of that game the same
    position holds the very same card, still matched. *)
Theorem matched_stays_matched w es w' i c :
  in_one_game w -> Forall in_game es -> steps w es w' ->
  nth_error (cards (app w)) i = Some c -> stateOf c = Matched ->
  nth_error (cards (app w')) i = Some c /\ stateOf c = Matched.
Proof.
  intros Hw Hg Hrun Hi Hm. split; [|exact Hm].
  apply stateOf_Matched in Hm. apply in_one_game_inv in Hw.
  revert Hg Hw Hi. induction Hrun as [|w e w1 es w2 H1 _ IH]; intros Hg Hw Hi.
  - exact Hi.
  - inversion Hg; subst. apply IH.
    + assumption.
    + now apply (game_inv_step w e).
    + now apply (step_keeps_matched w e).
Qed.

Lemma matched_stays_matched_witness :
  nth_error (cards (app (play [Click 0; Click 8; Fire 0; Click 1; Click 2;
                               Fire 0; Click 0; Click 9; Click 1; Fire 0])))
            0
  = Some (with_matched (newCard 1 0)) /\
  stateOf (with_matched (newCard 1 0)) = Matched.
Proof.
  apply (matched_stays_matched
           (play [Click 0; Click 8; Fire 0])
           [Click 1; Click 2; Fire 0; Click 0; Click 9; Click 1; Fire 0]).
  - apply play_in_one_game.
    + repeat constructor.
    + vm_compute. discriminate.
  - repeat constructor.
  - apply run_steps.
    + repeat constructor.
    + vm_compute. reflexivity.
  - vm_compute. reflexivity.
  - reflexivity.
Defined.

(** *** A round: two clicks and the timer *)

(** In a game a card that lies face down has a symbol not yet matched, so
    the guard lets a click on it through unless two cards are turned. *)
Lemma hidden_clickable w c :
  game_inv w -> In c (cards (app w)) -> stateOf c = Hidden ->
  List.length (flippedCards (app w)) <> 2 ->
  ignores (app w) c = false.
Proof.
  intros Hinv Hin Hh Hlen. apply stateOf_Hidden in Hh. destruct Hh as [Hf Hm].
  unfold ignores. rewrite Hf, Hm. simpl.
  apply Nat.eqb_neq in Hlen. rewrite Hlen. simpl.
  destruct (includes (pokemonId c) (matchedPairs (app w))) eqn:Hinc;
    [|reflexivity].
  pose proof (inv_symbol_up w Hinv c Hin Hinc). congruence.
Qed.

Lemma findCard_flipUp_other x y cs c :
  findCard y cs = Some c -> y <> x -> findCard y (flipUp x cs) = Some c.
Proof.
  intros Hf Hne. unfold flipUp. rewrite findCard_map.
  - rewrite Hf. simpl. apply findCard_some in Hf. destruct Hf as [_ ->].
    apply Nat.eqb_neq in Hne. now rewrite Hne.
  - intro d. now destruct (id d =? x).
Qed.

(** Turning [a] and [b] up and then both down gives back a board on which
    they lay face down. *)
Lemma flipDown_flipUp a b cs :
  (forall c, In c cs -> id c = a \/ id c = b -> isFlipped c = false) ->
  flipDown [a; b] (flipUp b (flipUp a cs)) = cs.
Proof.
  intro Hdown. unfold flipDown, flipUp. rewrite !map_map.
  rewrite <- (map_id cs) at 2. apply map_ext_in. intros c Hc.
  specialize (Hdown c Hc). unfold includes.
  destruct c as [i p im f m]. simpl in *.
  destruct (i =? a) eqn:Ea; destruct (i =? b) eqn:Eb; simpl;
    repeat (progress (rewrite ?Ea, ?Eb; simpl));
    try (rewrite Hdown;
         [reflexivity
         |first [left; now apply Nat.eqb_eq|right; now apply Nat.eqb_eq]]).
  reflexivity.
Qed.

(** In a game begun with no timer pending and with no card turned,
    clicking two face-down cards of different symbols leaves both revealed
    and [tries] one higher (the first click does not count, the second
    does) and schedules the flip-back; when that timer fires, those two
    cards are face down again, every other card is as it was (the board is
    the one before the two clicks) and [flippedCards] is empty. *)
Theorem mismatch_round w a b ca cb :
  in_one_game w ->
  flippedCards (app w) = [] ->
  findCard a (cards (app w)) = Some ca ->
  findCard b (cards (app w)) = Some cb ->
  stateOf ca = Hidden -> stateOf cb = Hidden ->
  pokemonId ca <> pokemonId cb ->
  exists s1 s2 t,
    handleCardClick (app w) a = Returned s1 [] /\
    handleCardClick s1 b = Returned s2 [t] /\
    t = FlipBack (cards s2) [a; b] /\
    findCard a (cards s2) = Some (with_isFlipped true ca) /\
    findCard b (cards s2) = Some (with_isFlipped true cb) /\
    stateOf (with_isFlipped true ca) = Revealed /\
    stateOf (with_isFlipped true cb) = Revealed /\
    flippedCards s2 = [a; b] /\
    tries s1 = tries (app w) /\
    tries s2 = tries (app w) + 1 /\
    score s2 = score (app w) /\
    matchedPairs s2 = matchedPairs (app w) /\
    cards (fire t s2) = cards (app w) /\
    cards (fire t s2) = flipDown [a; b] (cards s2) /\
    flippedCards (fire t s2) = [] /\
    tries (fire t s2) = tries (app w) + 1.
Proof.
  intros Hw Hfl Ha Hb Hha Hhb Hdiff. apply in_one_game_inv in Hw.
  destruct (findCard_some _ _ _ Ha) as [Hina Hida].
  destruct (findCard_some _ _ _ Hb) as [Hinb Hidb].
  assert (Hab : a <> b) by (intros ->; congruence).
  assert (Hga : ignores (app w) ca = false)
    by (apply (hidden_clickable w); auto; rewrite Hfl; discriminate).
  assert (Hgb : ignores (app w) cb = false)
    by (apply (hidden_clickable w); auto; rewrite Hfl; discriminate).
  pose proof (click_first (app w) a ca Ha Hga) as H1.
  rewrite Hfl in H1. specialize (H1 ltac:(discriminate)). simpl app in H1.
  set (s1 := setCards (flipUp a (cards (app w)))
               (setFlippedCards [a] (app w))) in *.
  assert (Hgb1 : ignores s1 cb = false).
  { unfold ignores in *. simpl. rewrite !orb_false_iff in *. tauto. }
  pose proof (click_second s1 a b (with_isFlipped true ca) cb eq_refl
                (findCard_flipUp _ _ _ Ha)
                (findCard_flipUp_other a b _ cb Hb (not_eq_sym Hab))
                Hgb1) as H2.
  cbv zeta in H2. simpl pokemonId in H2.
  apply Nat.eqb_neq in Hdiff. rewrite Hdiff in H2.
  apply stateOf_Hidden in Hha, Hhb. destruct Hha as [Hfa Hma], Hhb as [Hfb Hmb].
  eexists s1, _, _. split; [exact H1|]. split; [exact H2|].
  cbn [cards flippedCards tries score matchedPairs fire
       setTries setCards setFlippedCards s1].
  split; [reflexivity|].
  split; [apply findCard_flipUp_other;
            [now apply findCard_flipUp|exact Hab]|].
  split; [apply findCard_flipUp;
            now apply findCard_flipUp_other; [|apply not_eq_sym]|].
  split; [apply stateOf_Revealed; now split|].
  split; [apply stateOf_Revealed; now split|].
  repeat (split; [reflexivity|]).
  split; [|repeat split].
  apply flipDown_flipUp. intros c Hc [E|E].
  - rewrite (same_id_same_card _ c ca (inv_ids w Hw) Hc Hina); congruence.
  - rewrite (same_id_same_card _ c cb (inv_ids w Hw) Hc Hinb); congruence.
Qed.

Lemma mismatch_round_witness :
  exists s1 s2 t,
    handleCardClick (app (play [])) 0 = Returned s1 [] /\
    handleCardClick s1 1 = Returned s2 [t] /\
    t = FlipBack (cards s2) [0; 1] /\
    findCard 0 (cards s2) = Some (with_isFlipped true (newCard 1 0)) /\
    findCard 1 (cards s2) = Some (with_isFlipped true (newCard 4 1)) /\
    stateOf (with_isFlipped true (newCard 1 0)) = Revealed /\
    stateOf (with_isFlipped true (newCard 4 1)) = Revealed /\
    flippedCards s2 = [0; 1] /\
    tries s1 = tries (app (play [])) /\
    tries s2 = tries (app (play [])) + 1 /\
    score s2 = score (app (play [])) /\
    matchedPairs s2 = matchedPairs (app (play [])) /\
    cards (fire t s2) = cards (app (play [])) /\
    cards (fire t s2) = flipDown [0; 1] (cards s2) /\
    flippedCards (fire t s2) = [] /\
    tries (fire t s2) = tries (app (play [])) + 1.
Proof.
  apply (mismatch_round (play []) 0 1 (newCard 1 0) (newCard 4 1)).
  - apply play_in_one_game; [constructor|vm_compute; discriminate].
  - reflexivity.
  - reflexivity.
  - reflexivity.
  - reflexivity.
  - reflexivity.
  - simpl. lia.
Defined.

(** What the callback that marks a match leaves in each cell. *)
Lemma fire_MarkMatched uc fc nmp s :
  cards (fire (MarkMatched uc fc nmp) s) = markSymbol fc uc /\
  flippedCards (fire (MarkMatched uc fc nmp) s) = [] /\
  matchedPairs (fire (MarkMatched uc fc nmp) s) = matchedPairs s /\
  score (fire (MarkMatched uc fc nmp) s) = score s /\
  tries (fire (MarkMatched uc fc nmp) s) = tries s /\
  gameOver (fire (MarkMatched uc fc nmp) s)
  = (List.length nmp =? List.length POKEMON_IDS) || gameOver s.
Proof.
  unfold fire.
  destruct (List.length nmp =? List.length POKEMON_IDS); simpl; tauto.
Qed.

(** Once the game is over no card lies face down. *)
Lemma game_over_all_up w c :
  game_inv w -> gameOver (app w) = true -> In c (cards (app w)) ->
  isFlipped c = true.
Proof.
  intros Hinv Hov Hin. apply (inv_symbol_up w Hinv c Hin).
  apply includes_In.
  apply (NoDup_length_incl (l' := POKEMON_IDS) (inv_pairs w Hinv)).
  - rewrite (inv_over w Hinv Hov). apply Nat.le_refl.
  - apply (inv_pairs_known w Hinv).
  - apply symbol_known.
    pose proof (inv_deal w Hinv) as Hd. rewrite Forall_forall in Hd. auto.
Qed.




(** *** Saving the result *)

Lemma saveResult_blank s :
  is_empty (trim (playerName s)) = true -> saveResult s = None.
Proof. unfold saveResult. now intros ->. Qed.

(** C1. Whenever [saveResult] posts, the body carries the player name as
    typed, the score, the tries, and [matches = matchedPairs.length + 1];
    for a completed game, where all [POKEMON_IDS.length] pairs are matched,
    that is one more than the number of pairs. *)
Theorem saveResult_matches_plus_one s :
  is_empty (trim (playerName s)) = false ->
  exists body,
    saveResult s = Some body /\
    prop "matches" body
    = JNum (Z.of_nat (List.length (matchedPairs s)) + 1) /\
    prop "player_name" body = JStr (playerName s) /\
    prop "score" body = JNum (Z.of_nat (score s)) /\
    prop "tries" body = JNum (Z.of_nat (tries s)) /\
    (forall w, in_one_game w -> app w = s -> gameOver s = true ->
       List.length (matchedPairs s) = List.length POKEMON_IDS /\
       prop "matches" body = JNum (Z.of_nat (List.length POKEMON_IDS) + 1)).
Proof.
  intro Hname. unfold saveResult. rewrite Hname. eexists. split; [reflexivity|].
  assert (Hm : JNum (Z.of_nat (List.length (matchedPairs s) + 1))
               = JNum (Z.of_nat (List.length (matchedPairs s)) + 1))
    by (f_equal; lia).
  repeat split; try reflexivity; try exact Hm.
  - subst s. apply (inv_over w); [now apply in_one_game_inv|assumption].
  - subst s. cbn [prop String.eqb Ascii.eqb Bool.eqb]. rewrite Hm.
    rewrite (inv_over w); [reflexivity|now apply in_one_game_inv|assumption].
Qed.

Lemma saveResult_matches_plus_one_witness :
  let s := app (play [Click 0; Click 8; Fire 0; Click 1; Click 9; Fire 0;
                      Click 2; Click 10; Fire 0; Click 3; Click 11; Fire 0;
                      Click 4; Click 12; Fire 0; Click 5; Click 13; Fire 0;
                      Click 6; Click 14; Fire 0; Click 7; Click 15; Fire 0;
                      TypeName (str "Ash")]) in
  exists body,
    saveResult s = Some body /\
    prop "matches" body
    = JNum (Z.of_nat (List.length (matchedPairs s)) + 1) /\
    prop "player_name" body = JStr (playerName s) /\
    prop "score" body = JNum (Z.of_nat (score s)) /\
    prop "tries" body = JNum (Z.of_nat (tries s)) /\
    (forall w, in_one_game w -> app w = s -> gameOver s = true ->
       List.length (matchedPairs s) = List.length POKEMON_IDS /\
       prop "matches" body = JNum (Z.of_nat (List.length POKEMON_IDS) + 1)).
Proof.
  intro s. apply (saveResult_matches_plus_one s). vm_compute. reflexivity.
Defined.

(** *** Timers that outlive their game

    [initializeGame] does not cancel the pending timers.  A callback
    scheduled in the previous game writes the board it captured there, so
    the facts above about one game do not extend to runs in which New Game
    is pressed while a timer is pending. *)

(** A flip-back of the previous game, firing after a match of the new game
    was marked, puts back the old board: the two matched cards are face
    down again. *)
Remark stale_flip_back :
  exists w w',
    reachable w /\ step w (Fire 0) w' /\
    option_map stateOf (findCard 2 (cards (app w))) = Some Matched /\
    option_map stateOf (findCard 2 (cards (app w'))) = Some Hidden.
Proof.
  assert (Hl : Forall lawful [Click 0; Click 1; NewGame reverse_order;
                             Click 2; Click 10; Fire 1]).
  { repeat constructor. apply reverse_order_rearranges. }
  exists (play [Click 0; Click 1; NewGame reverse_order;
                Click 2; Click 10; Fire 1]).
  eexists. split; [|split; [|split]].
  - apply play_reachable; [exact Hl|vm_compute; discriminate].
  - apply run1_step; [exact I|vm_compute; reflexivity].
  - vm_compute. reflexivity.
  - vm_compute. reflexivity.
Qed.

(** The callback of the last match of the previous game, firing after New
    Game, ends the new game before a pair was matched; [saveResult] then
    posts [matches = 1]. *)
Remark stale_game_over :
  exists w,
    reachable w /\ gameOver (app w) = true /\ matchedPairs (app w) = [] /\
    option_map (prop "matches") (saveResult (app w)) = Some (JNum 1).
Proof.
  assert (Hl : Forall lawful
                 [Click 0; Click 8; Fire 0; Click 1; Click 9; Fire 0;
                  Click 2; Click 10; Fire 0; Click 3; Click 11; Fire 0;
                  Click 4; Click 12; Fire 0; Click 5; Click 13; Fire 0;
                  Click 6; Click 14; Fire 0; Click 7; Click 15;
                  NewGame reverse_order; Fire 0; TypeName (str "Ash")]).
  { repeat constructor. apply reverse_order_rearranges. }
  eexists. split; [|split; [|split]].
  - apply play_reachable; [exact Hl|vm_compute; discriminate].
  - vm_compute. reflexivity.
  - vm_compute. reflexivity.
  - vm_compute. reflexivity.
Qed.

(** C5, at the failing input. The first two clicks turn cards 0 and 1,
    which differ, and schedule their flip-back; New Game is pressed and
    cards 2 and 10 are matched and marked before that flip-back runs.
    When it runs it writes the board of the game before: cards 2 and 10,
    matched, are hidden again, while the pair stays in [matchedPairs]. *)
Theorem matched_card_turned_back :
  let w := play [Click 0; Click 1; NewGame keep_order;
                 Click 2; Click 10; Fire 1] in
  exists uc w',
    reachable w /\
    pending w = [FlipBack uc [0; 1]] /\
    step w (Fire 0) w' /\
    option_map stateOf (nth_error (cards (app w)) 2) = Some Matched /\
    option_map stateOf (nth_error (cards (app w)) 10) = Some Matched /\
    option_map id (nth_error (cards (app w')) 2) = Some 2 /\
    option_map id (nth_error (cards (app w')) 10) = Some 10 /\
    option_map stateOf (nth_error (cards (app w')) 2) = Some Hidden /\
    option_map stateOf (nth_error (cards (app w')) 10) = Some Hidden /\
    matchedPairs (app w') = [7].
Proof.
  intro w. subst w. eexists _, _.
  split.
  { apply play_reachable.
    - repeat constructor. apply keep_order_rearranges.
    - vm_compute. discriminate. }
  split; [vm_compute; reflexivity|].
  split; [apply run1_step; [exact I|vm_compute; reflexivity]|].
  do 6 (split; [vm_compute; reflexivity|]).
  vm_compute. reflexivity.
Qed.

(** C6, at the failing inputs.  With the marking timer of the game before
    still pending, cards 2 and 3 of the new game are turned: both are
    revealed and [tries] is one higher.  The timer left over fires first
    and writes its board, on which 2 and 3 are hidden and 0 and 8 matched;
    the flip-back of 2 and 3 then writes the board it captured and turns 0
    and 8, which are not its two cards, from matched to hidden.  With a
    flip-back left over instead, card 5, turned after it ran, is turned
    down by the flip-back of 2 and 3.  And after the run against C5, card
    2 is hidden with nothing pending, yet a click on it is ignored, its
    symbol being in [matchedPairs]. *)
Theorem flip_back_turns_other_cards :
  (let w0 := play [Click 0; Click 8; NewGame keep_order; Click 2] in
   let w1 := play [Click 0; Click 8; NewGame keep_order; Click 2; Click 3] in
   let w := play [Click 0; Click 8; NewGame keep_order; Click 2; Click 3;
                  Fire 0] in
   let w' := play [Click 0; Click 8; NewGame keep_order; Click 2; Click 3;
                   Fire 0; Fire 0] in
   reachable w0 /\
   step w0 (Click 3) w1 /\ step w1 (Fire 0) w /\ step w (Fire 0) w' /\
   option_map stateOf (findCard 2 (cards (app w1))) = Some Revealed /\
   option_map stateOf (findCard 3 (cards (app w1))) = Some Revealed /\
   tries (app w1) = tries (app w0) + 1 /\
   List.map delay (pending w1) = [500; 1000] /\
   (exists uc, pending w = [FlipBack uc [2; 3]]) /\
   option_map stateOf (findCard 2 (cards (app w))) = Some Hidden /\
   option_map stateOf (findCard 3 (cards (app w))) = Some Hidden /\
   option_map stateOf (findCard 0 (cards (app w))) = Some Matched /\
   option_map stateOf (findCard 8 (cards (app w))) = Some Matched /\
   option_map stateOf (findCard 0 (cards (app w'))) = Some Hidden /\
   option_map stateOf (findCard 8 (cards (app w'))) = Some Hidden) /\
  (let w := play [Click 0; Click 1; NewGame keep_order; Click 2; Click 3;
                  Fire 0; Click 5] in
   let w' := play [Click 0; Click 1; NewGame keep_order; Click 2; Click 3;
                   Fire 0; Click 5; Fire 0] in
   reachable w /\
   step w (Fire 0) w' /\
   (exists uc, pending w = [FlipBack uc [2; 3]]) /\
   flippedCards (app w) = [5] /\
   option_map stateOf (findCard 5 (cards (app w))) = Some Revealed /\
   option_map stateOf (findCard 5 (cards (app w'))) = Some Hidden /\
   flippedCards (app w') = []) /\
  (let w := play [Click 0; Click 1; NewGame keep_order; Click 2; Click 10;
                  Fire 1; Fire 0] in
   reachable w /\
   pending w = [] /\ flippedCards (app w) = [] /\
   option_map stateOf (findCard 2 (cards (app w))) = Some Hidden /\
   handleCardClick (app w) 2 = Returned (app w) []).
Proof.
  assert (Hk : rearranges keep_order) by apply keep_order_rearranges.
  split; [|split].
  - intros w0 w1 w w'. subst w0 w1 w w'.
    split.
    { apply play_reachable;
        [repeat constructor; exact Hk|vm_compute; discriminate]. }
    do 3 (split; [apply run1_step; [exact I|vm_compute; reflexivity]|]).
    do 4 (split; [vm_compute; reflexivity|]).
    split; [eexists; vm_compute; reflexivity|].
    do 5 (split; [vm_compute; reflexivity|]).
    vm_compute. reflexivity.
  - intros w w'. subst w w'.
    split.
    { apply play_reachable;
        [repeat constructor; exact Hk|vm_compute; discriminate]. }
    split; [apply run1_step; [exact I|vm_compute; reflexivity]|].
    split; [eexists; vm_compute; reflexivity|].
    do 3 (split; [vm_compute; reflexivity|]).
    vm_compute. reflexivity.
  - intro w. subst w.
    split.
    { apply play_reachable;
        [repeat constructor; exact Hk|vm_compute; discriminate]. }
    do 3 (split; [vm_compute; reflexivity|]).
    vm_compute. reflexivity.
Qed.

End Play.

(* ================================================================== *)
(** ** The result store *)
(* ================================================================== *)

Module Store.
Import Server.

(** *** The order of [ORDER BY] *)

Lemma ascii_compare_refl a : Ascii.compare a a = Eq.
Proof. unfold Ascii.compare. apply N.compare_refl. Qed.

Lemma ascii_compare_lt_trans a b c :
  Ascii.compare a b = Lt -> Ascii.compare b c = Lt -> Ascii.compare a c = Lt.
Proof.
  unfold Ascii.compare. rewrite !N.compare_lt_iff. apply N.lt_trans.
Qed.

Lemma string_compare_refl s : String.compare s s = Eq.
Proof.
  induction s as [|a s IH]; simpl; [reflexivity|].
  now rewrite ascii_compare_refl.
Qed.

Lemma string_compare_lt_trans s t u :
  String.compare s t = Lt -> String.compare t u = Lt ->
  String.compare s u = Lt.
Proof.
  revert t u. induction s as [|a s IH]; intros [|b t] [|c u]; simpl;
    try congruence.
  destruct (Ascii.compare a b) eqn:Eab; try discriminate;
    destruct (Ascii.compare b c) eqn:Ebc; try discriminate; intros H1 H2.
  - apply Ascii.compare_eq_iff in Eab, Ebc. subst.
    rewrite ascii_compare_refl. now apply (IH t).
  - apply Ascii.compare_eq_iff in Eab. subst. now rewrite Ebc.
  - apply Ascii.compare_eq_iff in Ebc. subst. now rewrite Eab.
  - now rewrite (ascii_compare_lt_trans _ _ _ Eab Ebc).
Qed.

Lemma sql_compare_refl a : sql_compare a a = Eq.
Proof.
  destruct a; simpl; [reflexivity|apply Z.compare_refl|apply string_compare_refl].
Qed.

Lemma sql_compare_eq a b : sql_compare a b = Eq -> a = b.
Proof.
  destruct a, b; simpl; try discriminate; intro H.
  - reflexivity.
  - apply Z.compare_eq in H. now subst.
  - apply String.compare_eq_iff in H. now subst.
Qed.

Lemma sql_compare_antisym a b : sql_compare b a = CompOpp (sql_compare a b).
Proof.
  destruct a, b; simpl; try reflexivity.
  - apply Z.compare_antisym.
  - apply String.compare_antisym.
Qed.

Lemma sql_compare_lt_trans a b c :
  sql_compare a b = Lt -> sql_compare b c = Lt -> sql_compare a c = Lt.
Proof.
  destruct a, b, c; simpl; try congruence.
  - rewrite !Z.compare_lt_iff. apply Z.lt_trans.
  - apply string_compare_lt_trans.
Qed.

Lemma sql_compare_gt_trans a b c :
  sql_compare a b = Gt -> sql_compare b c = Gt -> sql_compare a c = Gt.
Proof.
  intros H1 H2.
  rewrite (sql_compare_antisym c a), (sql_compare_lt_trans c b a);
    [reflexivity| |].
  - rewrite (sql_compare_antisym b c), H2. reflexivity.
  - rewrite (sql_compare_antisym a b), H1. reflexivity.
Qed.

(** Of two rows one may stand before the other. *)
Lemma ranks_before_total r1 r2 :
  ranks_before r1 r2 = false -> ranks_before r2 r1 = true.
Proof.
  unfold ranks_before.
  rewrite (sql_compare_antisym (score r1) (score r2)).
  rewrite (sql_compare_antisym (tries r1) (tries r2)).
  destruct (sql_compare (score r1) (score r2)); simpl; try congruence.
  destruct (sql_compare (tries r1) (tries r2)); simpl; congruence.
Qed.

Lemma ranks_before_trans r1 r2 r3 :
  ranks_before r1 r2 = true -> ranks_before r2 r3 = true ->
  ranks_before r1 r3 = true.
Proof.
  unfold ranks_before.
  destruct (sql_compare (score r1) (score r2)) eqn:E12; try discriminate;
    destruct (sql_compare (score r2) (score r3)) eqn:E23; try discriminate.
  - apply sql_compare_eq in E12, E23. rewrite E12, E23, sql_compare_refl.
    destruct (sql_compare (tries r1) (tries r2)) eqn:T12; try discriminate;
      destruct (sql_compare (tries r2) (tries r3)) eqn:T23; try discriminate;
      intros _ _.
    + apply sql_compare_eq in T12, T23. now rewrite T12, T23, sql_compare_refl.
    + apply sql_compare_eq in T12. now rewrite T12, T23.
    + apply sql_compare_eq in T23. now rewrite <- T23, T12.
    + now rewrite (sql_compare_lt_trans _ _ _ T12 T23).
  - apply sql_compare_eq in E12. now rewrite E12, E23.
  - apply sql_compare_eq in E23. now rewrite <- E23, E12.
  - now rewrite (sql_compare_gt_trans _ _ _ E12 E23).
Qed.

(** On integer columns: a higher score first, and among equal scores the
    fewer tries first. *)
Lemma ranks_before_int r1 r2 s1 t1 s2 t2 :
  score r1 = SqlInt s1 -> tries r1 = SqlInt t1 ->
  score r2 = SqlInt s2 -> tries r2 = SqlInt t2 ->
  (ranks_before r1 r2 = true <-> (s2 < s1 \/ (s1 = s2 /\ t1 <= t2))%Z).
Proof.
  unfold ranks_before. intros -> -> -> ->. simpl.
  destruct (Z.compare_spec s1 s2) as [E|E|E].
  - destruct (Z.compare_spec t1 t2) as [T|T|T]; split; intro H;
      try reflexivity; try discriminate; try lia.
  - split; [discriminate|lia].
  - split; [lia|reflexivity].
Qed.

Lemma insert_ranked_perm r l : Permutation (r :: l) (insert_ranked r l).
Proof.
  induction l as [|x l IH]; simpl; [apply Permutation_refl|].
  destruct (ranks_before r x); [apply Permutation_refl|].
  apply perm_trans with (x :: r :: l); [apply perm_swap|].
  now apply perm_skip.
Qed.

Lemma insert_ranked_sorted r l : ranked l -> ranked (insert_ranked r l).
Proof.
  unfold ranked. induction l as [|x l IH]; simpl; intro Hs.
  - constructor; constructor.
  - inversion Hs as [|? ? Hl Hx]; subst.
    destruct (ranks_before r x) eqn:E.
    + constructor; [exact Hs|]. constructor; [exact E|].
      eapply Forall_impl; [|exact Hx].
      intros y Hy. now apply (ranks_before_trans r x y).
    + constructor; [now apply IH|].
      apply Forall_forall. intros y Hy.
      apply Permutation_in with (1 := Permutation_sym (insert_ranked_perm r l))
        in Hy.
      destruct Hy as [<-|Hy].
      * now apply ranks_before_total.
      * rewrite Forall_forall in Hx. now apply Hx.
Qed.

Lemma order_by_perm rows :
  Permutation rows (order_by_score_desc_tries_asc rows).
Proof.
  induction rows as [|r rows IH]; simpl; [constructor|].
  apply perm_trans with (r :: order_by_score_desc_tries_asc rows).
  - now apply perm_skip.
  - apply insert_ranked_perm.
Qed.

Lemma order_by_sorted rows : ranked (order_by_score_desc_tries_asc rows).
Proof.
  induction rows as [|r rows IH]; simpl; [constructor|].
  now apply insert_ranked_sorted.
Qed.

(** *** The leaderboard *)

Lemma example_rows_NoDup : NoDup example_rows.
Proof.
  unfold example_rows.
  repeat (constructor; [simpl; intros H; repeat destruct H as [H|H];
                        try discriminate H; exact H|]).
  constructor.
Qed.

(** Whatever order an engine picks among ties, the clause leaves one
    answer on the example. *)
Lemma example_order_unique out :
  Permutation example_rows out -> ranked out -> out = [misty; ash; brock].
Proof.
  intros Hp Hr.
  pose proof (Permutation_length Hp) as Hlen.
  destruct out as [|x [|y [|z [|]]]]; try discriminate Hlen.
  pose proof (Permutation_NoDup Hp example_rows_NoDup) as Hnd.
  assert (Hx : In x example_rows)
    by (apply Permutation_in with (1 := Permutation_sym Hp); simpl; auto).
  assert (Hy : In y example_rows)
    by (apply Permutation_in with (1 := Permutation_sym Hp); simpl; auto).
  assert (Hz : In z example_rows)
    by (apply Permutation_in with (1 := Permutation_sym Hp); simpl; auto).
  inversion Hr as [|? ? Hr1 Hfx]; subst.
  inversion Hr1 as [|? ? _ Hfy]; subst.
  inversion Hfx as [|? ? Hxy Hfx1]; subst.
  inversion Hfx1 as [|? ? Hxz _]; subst.
  inversion Hfy as [|? ? Hyz _]; subst.
  inversion Hnd as [|? ? Hn1 Hnd1]; subst.
  inversion Hnd1 as [|? ? Hn2 _]; subst.
  simpl in Hx, Hy, Hz, Hn1, Hn2.
  destruct Hx as [<-|[<-|[<-|[]]]];
    destruct Hy as [<-|[<-|[<-|[]]]];
    destruct Hz as [<-|[<-|[<-|[]]]];
    first [reflexivity
          |discriminate Hxy|discriminate Hxz|discriminate Hyz
          |exfalso; tauto].
Qed.

(** C8. [GET /api/leaderboard] answers 200 with the first ten rows of the
    table put in the order of [ORDER BY score DESC, tries ASC]: the rows
    are those of the table, every row stands before all later ones, where
    on integer columns a row stands before another when its score is
    higher, or the scores are equal and its tries are not more; and on the
    stored results 50/4, 50/2, 30/1 the answer is 50/2, 50/4, 30/1,
    whichever way ties are broken. *)
Theorem leaderboard_order db :
  exists sorted,
    get_leaderboard None db = mkResponse 200 (Rows (firstn 10 sorted)) /\
    Permutation (game_results db) sorted /\
    ranked sorted /\
    List.length (firstn 10 sorted)
    = Nat.min 10 (List.length (game_results db)) /\
    (forall r1 r2 s1 t1 s2 t2,
       score r1 = SqlInt s1 -> tries r1 = SqlInt t1 ->
       score r2 = SqlInt s2 -> tries r2 = SqlInt t2 ->
       (ranks_before r1 r2 = true <-> (s2 < s1 \/ (s1 = s2 /\ t1 <= t2))%Z)) /\
    (forall counter,
       get_leaderboard None (mkDb example_rows counter)
       = mkResponse 200 (Rows [misty; ash; brock])) /\
    (forall out, Permutation example_rows out -> ranked out ->
                 firstn 10 out = [misty; ash; brock]).
Proof.
  exists (order_by_score_desc_tries_asc (game_results db)).
  split; [reflexivity|].
  split; [apply order_by_perm|].
  split; [apply order_by_sorted|].
  split.
  { rewrite length_firstn, <- (Permutation_length (order_by_perm _)).
    reflexivity. }
  split; [exact ranks_before_int|].
  split; [reflexivity|].
  intros out Hp Hr. now rewrite (example_order_unique out Hp Hr).
Qed.

Lemma leaderboard_order_witness :
  exists sorted,
    get_leaderboard None (mkDb example_rows 3)
    = mkResponse 200 (Rows (firstn 10 sorted)) /\
    Permutation example_rows sorted /\
    ranked sorted /\
    List.length (firstn 10 sorted) = Nat.min 10 (List.length example_rows) /\
    (forall r1 r2 s1 t1 s2 t2,
       score r1 = SqlInt s1 -> tries r1 = SqlInt t1 ->
       score r2 = SqlInt s2 -> tries r2 = SqlInt t2 ->
       (ranks_before r1 r2 = true <-> (s2 < s1 \/ (s1 = s2 /\ t1 <= t2))%Z)) /\
    (forall counter,
       get_leaderboard None (mkDb example_rows counter)
       = mkResponse 200 (Rows [misty; ash; brock])) /\
    (forall out, Permutation example_rows out -> ranked out ->
                 firstn 10 out = [misty; ash; brock]).
Proof. apply (leaderboard_order (mkDb example_rows 3)). Defined.

(** A storage failure is reported with status 500. *)
Lemma leaderboard_failure message db :
  get_leaderboard (Some message) db
  = mkResponse 500 (Object [("error"%string, JStr message)]).
Proof. reflexivity. Qed.

(** *** Storing a result *)

Lemma next_rowid_fresh db :
  Forall (fun r => (id r < next_rowid db)%Z) (game_results db).
Proof.
  unfold next_rowid. generalize (sqlite_sequence db).
  induction (game_results db) as [|r rows IH]; intro z;
    cbn [fold_right List.map]; constructor.
  - lia.
  - eapply Forall_impl; [|apply (IH z)]. cbv beta. intros; lia.
Qed.

(** The three ways the handler can answer. *)
Lemma post_results_cases bind affinity fault now db body :
  post_results bind affinity fault now db body =
  if missing_fields body then
    (db, mkResponse 400
           (Object [("error"%string, JStr (str "Missing required fields"))]))
  else
    match fault with
    | Some message =>
      (db, mkResponse 500 (Object [("error"%string, JStr message)]))
    | None =>
      (mkDb (game_results db
               ++ [mkRow (next_rowid db)
                         (affinity (declared PlayerName)
                                   (bind (prop "player_name" body)))
                         (affinity (declared Score)
                                   (bind (prop "score" body)))
                         (affinity (declared Tries)
                                   (bind (prop "tries" body)))
                         (affinity (declared Matches)
                                   (bind (prop "matches" body)))
                         now])
            (next_rowid db),
       mkResponse 200
         (Object [("id"%string, JNum (next_rowid db));
                  ("player_name"%string, prop "player_name" body);
                  ("score"%string, prop "score" body);
                  ("tries"%string, prop "tries" body);
                  ("matches"%string, prop "matches" body);
                  ("message"%string,
                     JStr (str "Result saved successfully"))]))
    end.
Proof.
  unfold post_results, missing_fields, insert_result, js_or.
  destruct (truthy (prop "player_name" body)) eqn:Hn; simpl; [|reflexivity].
  destruct (is_undefined (prop "score" body)
            || is_undefined (prop "tries" body)
            || is_undefined (prop "matches" body)); reflexivity.
Qed.

(** Against C9 as stated: a request whose score is a string, whose tries
    are [null] and whose matches are a boolean is not of the shape of a
    result, yet it is stored and answered with 200; and the answer to a
    stored request has no [created_at]. *)
Lemma misshapen_result_is_stored :
  well_shaped misshapen_body = false /\
  status (snd (post_results bind_bytes affinity_digits None "2024-01-01 10:00:00"
                            emptyDb misshapen_body)) = 200 /\
  List.length (game_results
                 (fst (post_results bind_bytes affinity_digits None "2024-01-01 10:00:00"
                                    emptyDb misshapen_body))) = 1 /\
  payload_has "created_at"
    (payload (snd (post_results bind_bytes affinity_digits None "2024-01-01 10:00:00"
                                emptyDb zero_body))) = false.
Proof. repeat split; reflexivity. Qed.

(** C9, amended. [POST /api/results] answers 400 with
    [{error: "Missing required fields"}], storing nothing, exactly when
    [player_name] is falsy or one of [score], [tries], [matches] is
    [undefined]; no other check of shape is made.  Otherwise, if the
    storage fails, it answers 500 with the error and stores nothing; and
    if not, it appends one row to the rows there were, with a fresh id
    above theirs, the time of the insert and, in each column, the value
    the driver bound as the declared affinity of that column converts it
    (TEXT for the name, INTEGER for the three numbers), and answers 200
    with the id, the four fields as received and a confirmation message,
    without [created_at]. *)
Theorem post_results_contract bind affinity fault now db body :
  (missing_fields body = true ->
     post_results bind affinity fault now db body
     = (db, mkResponse 400
              (Object [("error"%string,
                        JStr (str "Missing required fields"))]))) /\
  (missing_fields body = false ->
     forall message, fault = Some message ->
       post_results bind affinity fault now db body
       = (db, mkResponse 500 (Object [("error"%string, JStr message)]))) /\
  (missing_fields body = false -> fault = None ->
     exists row,
       fst (post_results bind affinity fault now db body)
       = mkDb (game_results db ++ [row]) (id row) /\
       id row = next_rowid db /\
       Forall (fun r => (id r < id row)%Z) (game_results db) /\
       created_at row = now /\
       player_name row
       = affinity (declared PlayerName) (bind (prop "player_name" body)) /\
       score row = affinity (declared Score) (bind (prop "score" body)) /\
       tries row = affinity (declared Tries) (bind (prop "tries" body)) /\
       matches row
       = affinity (declared Matches) (bind (prop "matches" body)) /\
       snd (post_results bind affinity fault now db body)
       = mkResponse 200
           (Object [("id"%string, JNum (id row));
                    ("player_name"%string, prop "player_name" body);
                    ("score"%string, prop "score" body);
                    ("tries"%string, prop "tries" body);
                    ("matches"%string, prop "matches" body);
                    ("message"%string,
                       JStr (str "Result saved successfully"))]) /\
       payload_has "created_at"
         (payload (snd (post_results bind affinity fault now db body))) = false) /\
  (status (snd (post_results bind affinity fault now db body)) = 400 <->
   missing_fields body = true).
Proof.
  rewrite post_results_cases.
  split; [|split; [|split]].
  - now intros ->.
  - intros -> message ->. reflexivity.
  - intros -> ->.
    exists (mkRow (next_rowid db) (affinity (declared PlayerName)
                                            (bind (prop "player_name" body)))
                                  (affinity (declared Score) (bind (prop "score" body)))
                                  (affinity (declared Tries) (bind (prop "tries" body)))
                                  (affinity (declared Matches) (bind (prop "matches" body)))
                                  now).
    split; [reflexivity|]. simpl.
    repeat split; try reflexivity. apply next_rowid_fresh.
  - destruct (missing_fields body); [now split|].
    destruct fault; simpl; split; discriminate.
Qed.

Lemma post_results_contract_witness :
  missing_fields zero_body = false /\
  missing_fields nameless_body = true /\
  post_results bind_bytes affinity_digits None "2024-01-01 10:00:00" emptyDb nameless_body
  = (emptyDb, mkResponse 400
                (Object [("error"%string,
                          JStr (str "Missing required fields"))])) /\
  post_results bind_bytes affinity_digits (Some (str "SQLITE_BUSY")) "2024-01-01 10:00:00"
               emptyDb zero_body
  = (emptyDb, mkResponse 500
                (Object [("error"%string, JStr (str "SQLITE_BUSY"))])) /\
  exists row,
    fst (post_results bind_bytes affinity_digits None "2024-01-01 10:00:00" emptyDb zero_body)
    = mkDb (game_results emptyDb ++ [row]) (id row) /\
    id row = next_rowid emptyDb.
Proof.
  split; [reflexivity|]. split; [reflexivity|].
  split.
  { apply (proj1 (post_results_contract bind_bytes affinity_digits None
                    "2024-01-01 10:00:00" emptyDb nameless_body)).
    reflexivity. }
  split.
  { apply (proj1 (proj2 (post_results_contract bind_bytes affinity_digits
                    (Some (str "SQLITE_BUSY"))
                    "2024-01-01 10:00:00" emptyDb zero_body)));
      reflexivity. }
  destruct (proj1 (proj2 (proj2 (post_results_contract bind_bytes affinity_digits None
                    "2024-01-01 10:00:00" emptyDb zero_body)))
              eq_refl eq_refl) as [row [Hdb [Hid _]]].
  exists row. split; assumption.
Defined.

(** The same string of digits is stored as text in the name and as an
    integer in the three INTEGER columns. *)
Example digits_by_column :
  fst (post_results bind_bytes affinity_digits None "2024-01-02 09:00:00"
                    emptyDb digits_body)
  = mkDb [mkRow 1 (SqlText "50") (SqlInt 50) (SqlInt 50) (SqlInt 50)
                "2024-01-02 09:00:00"] 1.
Proof. reflexivity. Qed.

(** A score posted as the string "40" ranks as the number 40: third on the
    example table. *)
Example numeric_text_ranks_as_number :
  get_leaderboard None
    (fst (post_results bind_bytes affinity_digits None "2024-01-02 09:00:00"
                       (mkDb example_rows 3)
                       [("player_name"%string, JStr (str "Gary"));
                        ("score"%string, JStr (str "40"));
                        ("tries"%string, JNum 3);
                        ("matches"%string, JNum 9)]))
  = mkResponse 200
      (Rows [misty; ash;
             mkRow 4 (SqlText "Gary") (SqlInt 40) (SqlInt 3) (SqlInt 9)
                   "2024-01-02 09:00:00";
             brock]).
Proof. reflexivity. Qed.

(** C10. The name is tested for truthiness and the three numbers only
    against [undefined]: a request whose [player_name] is the empty string
    is answered 400 and not stored, while a request with a name and with
    [score], [tries] and [matches] present is never answered 400, also
    when they are 0, a value the truthiness test would refuse; such a
    request is stored and answered 200 when the storage works. *)
Theorem name_by_truthiness_numbers_by_undefined bind affinity fault now db body :
  (prop "player_name" body = JStr [] ->
     post_results bind affinity fault now db body
     = (db, mkResponse 400
              (Object [("error"%string,
                        JStr (str "Missing required fields"))]))) /\
  (truthy (prop "player_name" body) = true ->
   is_undefined (prop "score" body) = false ->
   is_undefined (prop "tries" body) = false ->
   is_undefined (prop "matches" body) = false ->
     status (snd (post_results bind affinity fault now db body)) <> 400 /\
     (fault = None ->
        status (snd (post_results bind affinity fault now db body)) = 200 /\
        List.length (game_results (fst (post_results bind affinity fault now db body)))
        = S (List.length (game_results db)))) /\
  (is_undefined (JNum 0) = false /\ truthy (JNum 0) = false) /\
  (truthy (prop "player_name" body) = true ->
   prop "score" body = JNum 0 -> prop "tries" body = JNum 0 ->
   prop "matches" body = JNum 0 ->
     post_results bind affinity None now db body
     = (mkDb (game_results db
                ++ [mkRow (next_rowid db)
                          (affinity (declared PlayerName)
                                    (bind (prop "player_name" body)))
                          (affinity (declared Score) (bind (JNum 0)))
                          (affinity (declared Tries) (bind (JNum 0)))
                          (affinity (declared Matches) (bind (JNum 0)))
                          now])
             (next_rowid db),
        mkResponse 200
          (Object [("id"%string, JNum (next_rowid db));
                   ("player_name"%string, prop "player_name" body);
                   ("score"%string, JNum 0);
                   ("tries"%string, JNum 0);
                   ("matches"%string, JNum 0);
                   ("message"%string,
                      JStr (str "Result saved successfully"))]))).
Proof.
  split; [|split; [|split]].
  - intro Hn. rewrite post_results_cases. unfold missing_fields.
    now rewrite Hn.
  - intros Hn Hs Ht Hm. rewrite post_results_cases. unfold missing_fields.
    rewrite Hn, Hs, Ht, Hm. simpl. split.
    + destruct fault; simpl; discriminate.
    + intros ->. simpl. split; [reflexivity|].
      rewrite length_app. simpl. lia.
  - split; reflexivity.
  - intros Hn Hs Ht Hm. rewrite post_results_cases. unfold missing_fields.
    now rewrite Hn, Hs, Ht, Hm.
Qed.

Lemma name_by_truthiness_numbers_by_undefined_witness :
  post_results bind_bytes affinity_digits None "2024-01-01 10:00:00" emptyDb nameless_body
  = (emptyDb, mkResponse 400
                (Object [("error"%string,
                          JStr (str "Missing required fields"))])) /\
  status (snd (post_results bind_bytes affinity_digits None "2024-01-01 10:00:00"
                            emptyDb zero_body)) = 200 /\
  post_results bind_bytes affinity_digits None "2024-01-01 10:00:00" emptyDb zero_body
  = (mkDb [mkRow 1 (SqlText "Ash") (SqlInt 0) (SqlInt 0) (SqlInt 0)
                 "2024-01-01 10:00:00"] 1,
     mkResponse 200
       (Object [("id"%string, JNum 1);
                ("player_name"%string, JStr (str "Ash"));
                ("score"%string, JNum 0);
                ("tries"%string, JNum 0);
                ("matches"%string, JNum 0);
                ("message"%string, JStr (str "Result saved successfully"))])).
Proof.
  pose proof (name_by_truthiness_numbers_by_undefined bind_bytes affinity_digits None
                "2024-01-01 10:00:00" emptyDb nameless_body) as [Hnameless _].
  pose proof (name_by_truthiness_numbers_by_undefined bind_bytes affinity_digits None
                "2024-01-01 10:00:00" emptyDb zero_body)
    as [_ [Hdefined [_ Hzero]]].
  split; [apply Hnameless; reflexivity|].
  split.
  - apply (Hdefined eq_refl eq_refl eq_refl eq_refl). reflexivity.
  - apply (Hzero eq_refl eq_refl eq_refl eq_refl).
Defined.

End Store.

(* ================================================================== *)
(** ** The page over all its runs *)
(* ================================================================== *)

Module Page.
Import App Deal Handlers Board Play.

Lemma whole_deck_sorted sort : rearranges sort -> whole_deck (sort dealt).
Proof.
  intro Hsort. pose proof (Hsort dealt) as Hp. split.
  - apply Permutation_sym.
    change (List.length pokemonPairs) with (2 * List.length POKEMON_IDS).
    rewrite <- dealt_ids. now apply Permutation_map.
  - apply Forall_forall. intros c Hin.
    apply Permutation_in with (1 := Permutation_sym Hp) in Hin.
    destruct (dealt_card c Hin) as [Hlt Hc]. split; [exact Hlt|].
    apply (f_equal pokemonId) in Hc. exact Hc.
Qed.

Lemma whole_deck_flipUp x cs : whole_deck cs -> whole_deck (flipUp x cs).
Proof.
  intros [Hp Hd]. split; [now rewrite map_id_flipUp|now apply from_deal_flipUp].
Qed.

Lemma whole_deck_markSymbol fc cs :
  whole_deck cs -> whole_deck (markSymbol fc cs).
Proof.
  intros [Hp Hd].
  split; [now rewrite map_id_markSymbol|now apply from_deal_markSymbol].
Qed.

Lemma whole_deck_flipDown ids cs :
  whole_deck cs -> whole_deck (flipDown ids cs).
Proof.
  intros [Hp Hd].
  split; [now rewrite map_id_flipDown|now apply from_deal_flipDown].
Qed.

(** On a whole deck every id below sixteen names a card. *)
Lemma whole_deck_rendered cs x :
  whole_deck cs -> x < List.length pokemonPairs -> In x (List.map id cs).
Proof.
  intros [Hp _] Hlt. apply Permutation_in with (1 := Permutation_sym Hp).
  apply in_seq. lia.
Qed.

Lemma Forall_remove_nth {A : Type} (P : A -> Prop) k (l : list A) :
  Forall P l -> Forall P (remove_nth k l).
Proof.
  intro H. revert k. induction H as [|x l Hx Hl IH]; intros [|k]; simpl;
    try constructor; auto.
Qed.

Lemma length_remove_nth {A : Type} k (l : list A) (t : A) :
  nth_error l k = Some t -> S (List.length (remove_nth k l)) = List.length l.
Proof.
  revert k. induction l as [|x l IH]; intros [|k] H; simpl in *;
    try discriminate; [reflexivity|].
  now rewrite (IH k H).
Qed.

Lemma NoDup_snoc (l : list nat) x : NoDup l -> ~ In x l -> NoDup (l ++ [x]).
Proof.
  intros Hnd Hx. apply Permutation_NoDup with (l := x :: l).
  - apply Permutation_cons_append.
  - now constructor.
Qed.

(** What the flip-back callback leaves in each cell. *)
Lemma fire_FlipBack uc nf s :
  cards (fire (FlipBack uc nf) s) = flipDown nf uc /\
  flippedCards (fire (FlipBack uc nf) s) = [] /\
  matchedPairs (fire (FlipBack uc nf) s) = matchedPairs s /\
  score (fire (FlipBack uc nf) s) = score s /\
  tries (fire (FlipBack uc nf) s) = tries s /\
  gameOver (fire (FlipBack uc nf) s) = gameOver s.
Proof. repeat split. Qed.

(** A timer callback writes the board it captured, and leaves the pairs,
    the score and the tries alone. *)
Lemma fire_cells t s :
  whole_deck (captured t) ->
  whole_deck (cards (fire t s)) /\
  flippedCards (fire t s) = [] /\
  matchedPairs (fire t s) = matchedPairs s /\
  score (fire t s) = score s /\
  tries (fire t s) = tries s.
Proof.
  intro Hd. destruct t as [uc fc nmp|uc nf]; simpl in Hd.
  - destruct (fire_MarkMatched uc fc nmp s) as [-> [-> [-> [-> [-> _]]]]].
    repeat split; try apply whole_deck_markSymbol; tauto.
  - destruct (fire_FlipBack uc nf s) as [-> [-> [-> [-> [-> _]]]]].
    repeat split; try apply whole_deck_flipDown; tauto.
Qed.

(** Turning card [x] up keeps the turned cards turned and distinct. *)
Lemma turned_flipUp cs ids x card :
  whole_deck cs ->
  findCard x cs = Some card -> isFlipped card = false ->
  NoDup ids ->
  (forall y, In y ids ->
     y < List.length pokemonPairs /\
     forall c, In c cs -> id c = y -> isFlipped c = true) ->
  NoDup (ids ++ [x]) /\
  (forall y, In y (ids ++ [x]) ->
     y < List.length pokemonPairs /\
     forall c, In c (flipUp x cs) -> id c = y -> isFlipped c = true).
Proof.
  intros [_ Hd] Hf Hdown Hnd Hturned.
  destruct (findCard_some _ _ _ Hf) as [Hcard Hid]. split.
  - apply NoDup_snoc; [exact Hnd|]. intro Hin.
    destruct (Hturned x Hin) as [_ Hup].
    rewrite (Hup card Hcard Hid) in Hdown. discriminate.
  - intros y Hy. apply in_app_or in Hy. destruct Hy as [Hy|[<-|[]]].
    + destruct (Hturned y Hy) as [Hlt Hup]. split; [exact Hlt|].
      intros c' Hc' Hidc'. apply in_flipUp in Hc'. destruct Hc' as [c [Hc ->]].
      destruct (id c =? x); [reflexivity|now apply Hup].
    + split.
      * rewrite Forall_forall in Hd. rewrite <- Hid. now apply Hd.
      * intros c' Hc' Hidc'. apply in_flipUp in Hc'.
        destruct Hc' as [c [Hc ->]].
        destruct (Nat.eqb_spec (id c) x) as [E|E]; [reflexivity|contradiction].
Qed.

Lemma page_inv_fresh sort s0 : rearranges sort -> page_inv (fresh sort s0).
Proof.
  intro Hsort. constructor; simpl.
  - now apply whole_deck_sorted.
  - constructor.
  - intros x [].
  - constructor.
  - constructor.
  - intros p [].
  - reflexivity.
  - lia.
Qed.

Lemma page_inv_click w cardId s' ts :
  page_inv w ->
  handleCardClick (app w) cardId = Returned s' ts ->
  page_inv (mkWorld s' (pending w ++ ts)).
Proof.
  intros [Hdeck Htimers Hturned Hdistinct Hpairs Hknown Hscore Htries] Hc.
  apply handleCardClick_Returned in Hc. destruct Hc as [card [Hf Hcases]].
  destruct Hcases
    as [[Hig [-> ->]]
       |[[Hig [Hlen [-> ->]]]
        |[Hig [a [fc [Hfl [Ha Hsec]]]]]]].
  - rewrite app_nil_r. now constructor.
  - assert (Hg := Hig). unfold ignores in Hg. rewrite !orb_false_iff in Hg.
    destruct Hg as [[[Hdown _] _] _].
    destruct (turned_flipUp _ _ _ _ Hdeck Hf Hdown Hdistinct Hturned)
      as [Hnd' Hturned'].
    rewrite app_nil_r.
    constructor;
      cbn [app pending cards flippedCards matchedPairs score tries
           setCards setFlippedCards]; try assumption.
    now apply whole_deck_flipUp.
  - assert (Hg := Hig). unfold ignores in Hg. rewrite !orb_false_iff in Hg.
    destruct Hg as [[[Hdown _] _] Hsym].
    destruct (turned_flipUp _ _ _ _ Hdeck Hf Hdown Hdistinct Hturned)
      as [Hnd' Hturned'].
    rewrite Hfl in Hnd', Hturned'. simpl app in Hnd', Hturned'.
    pose proof (whole_deck_flipUp cardId _ Hdeck) as Hdeck'.
    cbv zeta in Hsec. destruct Hsec as [[Hsame [-> ->]]|[Hdiff [-> ->]]].
    + destruct (findCard_some _ _ _ Ha) as [Hfc _].
      constructor;
        cbn [app pending cards flippedCards matchedPairs score tries
             setCards setFlippedCards setTries setMatchedPairs setScore];
        try assumption.
      * apply Forall_app. split; [exact Htimers|].
        constructor; [exact Hdeck'|constructor].
      * apply NoDup_snoc; [exact Hpairs|]. rewrite Hsame.
        now apply includes_not_In.
      * apply incl_app; [exact Hknown|]. intros p [<-|[]].
        apply symbol_known. destruct Hdeck as [_ Hd].
        rewrite Forall_forall in Hd. now apply Hd.
      * rewrite length_app. change (List.length [pokemonId fc]) with 1. lia.
      * rewrite length_app. change (List.length [pokemonId fc]) with 1. lia.
    + constructor;
        cbn [app pending cards flippedCards matchedPairs score tries
             setCards setFlippedCards setTries];
        try assumption.
      * apply Forall_app. split; [exact Htimers|].
        constructor; [exact Hdeck'|constructor].
      * lia.
Qed.

Lemma page_inv_step w e w' : page_inv w -> step w e w' -> page_inv w'.
Proof.
  intros Hinv Hstep.
  destruct Hstep as [w cardId s' ts Hin Hc|w k t Hk|w sort Hs|w name|w].
  - exact (page_inv_click w cardId s' ts Hinv Hc).
  - destruct Hinv as [Hdeck Htimers Hturned Hdistinct Hpairs Hknown Hscore Htries].
    assert (Ht : whole_deck (captured t)).
    { rewrite Forall_forall in Htimers. apply Htimers.
      now apply nth_error_In with k. }
    destruct (fire_cells t (app w) Ht) as [Hd [Hf [Hm [Hs Htr]]]].
    constructor; cbn [app pending]; rewrite ?Hf, ?Hm, ?Hs, ?Htr;
      try assumption.
    + now apply Forall_remove_nth.
    + intros x [].
    + constructor.
  - destruct Hinv as [Hdeck Htimers Hturned Hdistinct Hpairs Hknown Hscore Htries].
    constructor; simpl; try assumption.
    + now apply whole_deck_sorted.
    + intros x [].
    + constructor.
    + constructor.
    + intros p [].
    + lia.
    + lia.
  - destruct Hinv. now constructor.
  - destruct Hinv. now constructor.
Qed.

Lemma reachable_page_inv w : reachable w -> page_inv w.
Proof.
  intros [sort [es [Hsort Hrun]]].
  apply (steps_preserve page_inv page_inv_step _ _ _ Hrun).
  now apply page_inv_fresh.
Qed.

Lemma in_one_game_page_inv w : in_one_game w -> page_inv w.
Proof.
  intros [sort [s0 [es [Hsort [_ Hrun]]]]].
  apply (steps_preserve page_inv page_inv_step _ _ _ Hrun).
  now apply page_inv_fresh.
Qed.

Lemma whole_deck_symbols cs :
  whole_deck cs -> Permutation (List.map pokemonId cs) pokemonPairs.
Proof.
  intros [Hp Hd].
  assert (Hm : List.map pokemonId cs
               = List.map (fun i => nth i pokemonPairs 0) (List.map id cs)).
  { rewrite map_map. apply map_ext_in. intros c Hc.
    rewrite Forall_forall in Hd. now destruct (Hd c Hc). }
  rewrite Hm.
  change pokemonPairs
    with (List.map (fun i => nth i pokemonPairs 0)
                   (seq 0 (List.length pokemonPairs))) at 2.
  now apply Permutation_map.
Qed.

(** X1. Through every run of the page (clicks, timer callbacks, also those
    left over from an earlier game, and New Game) the board keeps the
    sixteen dealt cards: the ids 0 .. 15 each once, every card with the
    symbol dealt to its id, every symbol on exactly two cards. *)
Theorem deck_is_kept w :
  reachable w ->
  Permutation (List.map id (cards (app w)))
              (seq 0 (2 * List.length POKEMON_IDS)) /\
  List.length (cards (app w)) = 2 * List.length POKEMON_IDS /\
  (forall c, In c (cards (app w)) ->
             pokemonId c = nth (id c) pokemonPairs 0) /\
  (forall p, In p (List.map pokemonId (cards (app w))) ->
             count_occ Nat.eq_dec (List.map pokemonId (cards (app w))) p = 2).
Proof.
  intro Hw. pose proof (page_deck w (reachable_page_inv w Hw)) as Hdeck.
  pose proof (whole_deck_symbols _ Hdeck) as Hsym.
  destruct Hdeck as [Hp Hd].
  split; [exact Hp|]. split; [|split].
  - rewrite <- (length_map id), (Permutation_length Hp). apply length_seq.
  - intros c Hc. rewrite Forall_forall in Hd. now destruct (Hd c Hc).
  - intros p Hin.
    rewrite (proj1 (Permutation_count_occ Nat.eq_dec _ _) Hsym).
    apply count_occ_doubled; [apply POKEMON_IDS_NoDup|].
    now apply Permutation_in with (1 := Hsym).
Qed.

Lemma deck_is_kept_witness :
  let w := play [Click 0; Click 1; NewGame reverse_order; Click 2; Click 10;
                 Fire 1; Fire 0] in
  Permutation (List.map id (cards (app w)))
              (seq 0 (2 * List.length POKEMON_IDS)) /\
  List.length (cards (app w)) = 2 * List.length POKEMON_IDS /\
  (forall c, In c (cards (app w)) ->
             pokemonId c = nth (id c) pokemonPairs 0) /\
  (forall p, In p (List.map pokemonId (cards (app w))) ->
             count_occ Nat.eq_dec (List.map pokemonId (cards (app w))) p = 2).
Proof.
  apply (deck_is_kept
           (play [Click 0; Click 1; NewGame reverse_order; Click 2; Click 10;
                  Fire 1; Fire 0])).
  apply play_reachable.
  - repeat constructor. apply reverse_order_rearranges.
  - vm_compute. discriminate.
Defined.

(** X2. In every world the page can reach, a click on a card of the board
    returns: [handleCardClick] never reads a property of [undefined],
    neither for the clicked card nor for the first card of the pair. *)
Theorem click_never_throws w cardId :
  reachable w ->
  In cardId (List.map id (cards (app w))) ->
  exists s' ts, handleCardClick (app w) cardId = Returned s' ts.
Proof.
  intros Hw Hin. pose proof (reachable_page_inv w Hw) as Hinv.
  destruct (findCard_rendered _ _ Hin) as [card Hf].
  destruct (ignores (app w) card) eqn:Hg.
  - exists (app w), []. now rewrite handleCardClick_eq, Hf, Hg.
  - destruct (Nat.eq_dec (List.length (flippedCards (app w))) 1) as [E|E].
    + destruct (flippedCards (app w)) as [|a [|b l]] eqn:Hfl;
        try discriminate E.
      destruct (page_turned w Hinv a) as [Ha _]; [rewrite Hfl; now left|].
      destruct (findCard_rendered a (cards (app w))) as [fc Hfc].
      { apply whole_deck_rendered; [apply (page_deck w Hinv)|exact Ha]. }
      rewrite (click_second _ a cardId fc card Hfl Hfc Hf Hg). cbv zeta.
      destruct (pokemonId fc =? pokemonId card); eexists _, _; reflexivity.
    + eexists _, _. apply (click_first _ _ card Hf Hg E).
Qed.

Lemma click_never_throws_witness :
  exists s' ts,
    handleCardClick
      (app (play [Click 0; Click 1; NewGame reverse_order; Fire 0; Click 3]))
      11
    = Returned s' ts.
Proof.
  apply (click_never_throws
           (play [Click 0; Click 1; NewGame reverse_order; Fire 0; Click 3])
           11).
  - apply play_reachable.
    + repeat constructor. apply reverse_order_rearranges.
    + vm_compute. discriminate.
  - vm_compute. tauto.
Defined.

(** X3. In every world the page can reach, [flippedCards] names distinct
    cards that lie face up, and a click on a card named there is ignored:
    a card is never compared with itself. *)
Theorem turned_cards_are_distinct w :
  reachable w ->
  NoDup (flippedCards (app w)) /\
  (forall cardId, In cardId (flippedCards (app w)) ->
     (exists c, findCard cardId (cards (app w)) = Some c /\
                isFlipped c = true) /\
     handleCardClick (app w) cardId = Returned (app w) []).
Proof.
  intro Hw. pose proof (reachable_page_inv w Hw) as Hinv.
  split; [apply (page_distinct w Hinv)|].
  intros cardId Hin. destruct (page_turned w Hinv cardId Hin) as [Hlt Hup].
  destruct (findCard_rendered cardId (cards (app w))) as [card Hf].
  { apply whole_deck_rendered; [apply (page_deck w Hinv)|exact Hlt]. }
  destruct (findCard_some _ _ _ Hf) as [Hcard Hid].
  pose proof (Hup card Hcard Hid) as Hflipped.
  split; [now exists card|].
  rewrite handleCardClick_eq, Hf. unfold ignores. now rewrite Hflipped.
Qed.

Lemma turned_cards_are_distinct_witness :
  let w := play [Click 0; Click 1; NewGame reverse_order; Click 5] in
  NoDup (flippedCards (app w)) /\
  (forall cardId, In cardId (flippedCards (app w)) ->
     (exists c, findCard cardId (cards (app w)) = Some c /\
                isFlipped c = true) /\
     handleCardClick (app w) cardId = Returned (app w) []).
Proof.
  apply (turned_cards_are_distinct
           (play [Click 0; Click 1; NewGame reverse_order; Click 5])).
  apply play_reachable.
  - repeat constructor. apply reverse_order_rearranges.
  - vm_compute. discriminate.
Defined.

(** X4. In every world the page can reach, the score is ten times the
    number of matched pairs, no symbol is listed twice in [matchedPairs],
    there are at most [POKEMON_IDS.length] of them, so the score is at most
    80, and the tries are at least the number of matched pairs. *)
Theorem score_counts_pairs w :
  reachable w ->
  score (app w) = 10 * List.length (matchedPairs (app w)) /\
  NoDup (matchedPairs (app w)) /\
  List.length (matchedPairs (app w)) <= List.length POKEMON_IDS /\
  score (app w) <= 80 /\
  List.length (matchedPairs (app w)) <= tries (app w).
Proof.
  intro Hw. pose proof (reachable_page_inv w Hw) as Hinv.
  pose proof (NoDup_incl_length (page_pairs w Hinv) (page_pairs_known w Hinv))
    as Hle.
  pose proof (page_score w Hinv) as Hs.
  split; [exact Hs|]. split; [apply (page_pairs w Hinv)|].
  split; [exact Hle|]. split; [|apply (page_tries w Hinv)].
  change (List.length POKEMON_IDS) with 8 in Hle. lia.
Qed.

Lemma score_counts_pairs_witness :
  let w := play [Click 0; Click 8; Fire 0; Click 1; Click 2; Fire 0;
                 Click 3; Click 11] in
  score (app w) = 10 * List.length (matchedPairs (app w)) /\
  NoDup (matchedPairs (app w)) /\
  List.length (matchedPairs (app w)) <= List.length POKEMON_IDS /\
  score (app w) <= 80 /\
  List.length (matchedPairs (app w)) <= tries (app w).
Proof.
  apply (score_counts_pairs
           (play [Click 0; Click 8; Fire 0; Click 1; Click 2; Fire 0;
                  Click 3; Click 11])).
  apply play_reachable.
  - repeat constructor.
  - vm_compute. discriminate.
Defined.

(** X16. New Game does not cancel the timers: it leaves every pending
    callback pending, and when one fires afterwards it writes the board it
    captured in the previous game over the new one and empties
    [flippedCards], while the score, the tries and the matched pairs stay
    those of the new game. *)
Theorem new_game_keeps_timers w sort k t :
  rearranges sort ->
  nth_error (pending w) k = Some t ->
  let w1 := mkWorld (initializeGame sort (app w)) (pending w) in
  let w2 := mkWorld (fire t (app w1)) (remove_nth k (pending w)) in
  step w (NewGame sort) w1 /\
  step w1 (Fire k) w2 /\
  cards (app w2) = cards (fire t (app w)) /\
  flippedCards (app w2) = [] /\
  score (app w2) = 0 /\ tries (app w2) = 0 /\ matchedPairs (app w2) = [].
Proof.
  intros Hsort Hk w1 w2. subst w1 w2.
  split; [now apply step_new|].
  split; [now apply (step_fire (mkWorld (initializeGame sort (app w))
                                        (pending w)) k t)|].
  cbn [app]. split; [|split; [apply fire_clears|]].
  - destruct t as [uc fc nmp|uc nf]; [|reflexivity].
    now rewrite !(proj1 (fire_MarkMatched _ _ _ _)).
  - destruct t as [uc fc nmp|uc nf]; [|repeat split].
    destruct (fire_MarkMatched uc fc nmp (initializeGame sort (app w)))
      as [_ [_ [-> [-> [-> _]]]]].
    repeat split.
Qed.

Lemma new_game_keeps_timers_witness :
  let w := play [Click 0; Click 8] in
  let t := MarkMatched (cards (app w))
                       (with_isFlipped true (newCard 1 0)) [1] in
  let w1 := mkWorld (initializeGame reverse_order (app w)) (pending w) in
  let w2 := mkWorld (fire t (app w1)) (remove_nth 0 (pending w)) in
  step w (NewGame reverse_order) w1 /\
  step w1 (Fire 0) w2 /\
  cards (app w2) = cards (fire t (app w)) /\
  flippedCards (app w2) = [] /\
  score (app w2) = 0 /\ tries (app w2) = 0 /\ matchedPairs (app w2) = [].
Proof.
  apply (new_game_keeps_timers (play [Click 0; Click 8]) reverse_order 0
           (MarkMatched (cards (app (play [Click 0; Click 8])))
                        (with_isFlipped true (newCard 1 0)) [1])).
  - apply reverse_order_rearranges.
  - vm_compute. reflexivity.
Defined.

End Page.

(* ================================================================== *)
(** ** One game, further *)
(* ================================================================== *)

Module Game.
Import App Deal Handlers Board Play Page.

(** A click that is not ignored finds the game still running. *)
Lemma clickable_not_over w card :
  game_inv w -> In card (cards (app w)) ->
  ignores (app w) card = false -> gameOver (app w) = false.
Proof.
  intros Hinv Hin Hg. destruct (gameOver (app w)) eqn:E; [|reflexivity].
  pose proof (game_over_all_up w card Hinv E Hin) as Hup.
  unfold ignores in Hg. now rewrite Hup in Hg.
Qed.

Lemma marked_inv_fresh sort s0 : rearranges sort -> marked_inv (fresh sort s0).
Proof.
  intro Hsort. pose proof (game_inv_fresh sort s0 Hsort) as Hinv.
  constructor; simpl.
  - intros c Hc Hm. pose proof (Hsort dealt) as Hp.
    apply Permutation_in with (1 := Permutation_sym Hp) in Hc.
    destruct (dealt_card c Hc) as [_ E]. rewrite E in Hm. discriminate.
  - intros c _ [].
  - intros uc fc nmp [].
  - reflexivity.
Qed.

(** The fields a turn of a card leaves alone. *)
Lemma up_fields x c :
  pokemonId (if id c =? x then with_isFlipped true c else c) = pokemonId c /\
  isMatched (if id c =? x then with_isFlipped true c else c) = isMatched c /\
  id (if id c =? x then with_isFlipped true c else c) = id c.
Proof. now destruct (id c =? x). Qed.

Lemma down_fields ids c :
  pokemonId (if includes (id c) ids then with_isFlipped false c else c)
  = pokemonId c /\
  isMatched (if includes (id c) ids then with_isFlipped false c else c)
  = isMatched c /\
  id (if includes (id c) ids then with_isFlipped false c else c) = id c.
Proof. now destruct (includes (id c) ids). Qed.

(** Trace a card of the new board back to the card it was. *)
Ltac from_flipUp H x c Hc :=
  apply in_flipUp in H; destruct H as [c [Hc ->]];
  let Es := fresh "Es" in let Em := fresh "Em" in let Ei := fresh "Ei" in
  destruct (up_fields x c) as [Es [Em Ei]]; rewrite ?Es, ?Em, ?Ei in *.

Ltac from_flipDown H ids c Hc :=
  apply in_flipDown in H; destruct H as [c [Hc ->]];
  let Es := fresh "Es" in let Em := fresh "Em" in let Ei := fresh "Ei" in
  destruct (down_fields ids c) as [Es [Em Ei]]; rewrite ?Es, ?Em, ?Ei in *.

Lemma marked_inv_click w cardId s' ts :
  game_inv w -> marked_inv w ->
  handleCardClick (app w) cardId = Returned s' ts ->
  marked_inv (mkWorld s' (pending w ++ ts)).
Proof.
  intros Hinv [Hml Hlm Hmk Hov] Hc.
  apply handleCardClick_Returned in Hc. destruct Hc as [card [Hf Hcases]].
  destruct (findCard_some _ _ _ Hf) as [Hcard _].
  destruct Hcases
    as [[Hig [-> ->]]
       |[[Hig [Hlen [-> ->]]]
        |[Hig [a [fc [Hfl [Ha Hsec]]]]]]].
  - rewrite app_nil_r. destruct w. now constructor.
  - destruct (phase_clickable _ _ (inv_phase w Hinv) Hig) as [Hpend _].
    rewrite Hpend in *. constructor; simpl.
    + intros c' Hc' Hm. from_flipUp Hc' cardId c Hin. now apply Hml.
    + intros c' Hc' Hin'. from_flipUp Hc' cardId c Hin. left.
      destruct (Hlm c Hin Hin') as [Hm|[uc [fc [nmp [E _]]]]];
        [exact Hm|discriminate E].
    + intros uc fc nmp [].
    + reflexivity.
  - destruct (phase_clickable _ _ (inv_phase w Hinv) Hig) as [Hpend _].
    pose proof (clickable_not_over w card Hinv Hcard Hig) as Hrun.
    rewrite Hpend in *. cbv zeta in Hsec.
    destruct Hsec as [[Hsame [-> ->]]|[Hdiff [-> ->]]]; constructor; simpl.
    + intros c' Hc' Hm. from_flipUp Hc' cardId c Hin.
      apply in_or_app. left. now apply Hml.
    + intros c' Hc' Hin'. from_flipUp Hc' cardId c Hin.
      apply in_app_or in Hin'. destruct Hin' as [Hin'|[Hin'|[]]].
      * left. destruct (Hlm c Hin Hin') as [Hm|[uc [fc0 [nmp [E _]]]]];
          [exact Hm|discriminate E].
      * right. eexists _, fc, _. split; [reflexivity|congruence].
    + intros uc fc0 nmp [E|[]]. injection E as _ <- _.
      apply in_or_app. right. now left.
    + congruence.
    + intros c' Hc' Hm. from_flipUp Hc' cardId c Hin. now apply Hml.
    + intros c' Hc' Hin'. from_flipUp Hc' cardId c Hin. left.
      destruct (Hlm c Hin Hin') as [Hm|[uc [fc0 [nmp [E _]]]]];
        [exact Hm|discriminate E].
    + intros uc fc0 nmp [E|[]]. discriminate E.
    + congruence.
Qed.

Lemma marked_inv_fire w k t :
  game_inv w -> marked_inv w -> nth_error (pending w) k = Some t ->
  marked_inv (mkWorld (fire t (app w)) (remove_nth k (pending w))).
Proof.
  intros Hinv [Hml Hlm Hmk Hov] Hk.
  pose proof (inv_phase w Hinv) as Hph.
  destruct (phase_fire _ _ _ Hph Hk) as [Hpend ->].
  unfold phase in Hph. rewrite Hpend in *. simpl remove_nth.
  destruct t as [uc fc nmp|uc nf].
  - destruct Hph as [-> [-> _]].
    destruct (fire_MarkMatched (cards (app w)) fc (matchedPairs (app w))
                               (app w)) as [Hc [_ [Hm _]]].
    constructor; cbn [app pending]; rewrite ?Hc, ?Hm.
    + intros c' Hc' Hmt. apply in_markSymbol in Hc'.
      destruct Hc' as [c [Hin ->]].
      destruct (Nat.eqb_spec (pokemonId c) (pokemonId fc)) as [E|E].
      * simpl. rewrite E. apply (Hmk _ fc _ (or_introl eq_refl)).
      * now apply Hml.
    + intros c' Hc' Hin'. left. apply in_markSymbol in Hc'.
      destruct Hc' as [c [Hin ->]].
      destruct (Nat.eqb_spec (pokemonId c) (pokemonId fc)) as [E|E];
        [reflexivity|].
      destruct (Hlm c Hin Hin') as [Hmt|[uc0 [fc0 [nmp0 [E0 Hs]]]]];
        [exact Hmt|].
      injection E0 as _ <- _. contradiction.
    + intros uc0 fc0 nmp0 [].
    + reflexivity.
  - destruct Hph as [-> [-> _]].
    destruct (fire_FlipBack (cards (app w)) (flippedCards (app w)) (app w))
      as [Hc [_ [Hm _]]].
    constructor; cbn [app pending]; rewrite ?Hc, ?Hm.
    + intros c' Hc' Hmt. from_flipDown Hc' (flippedCards (app w)) c Hin.
      now apply Hml.
    + intros c' Hc' Hin'. from_flipDown Hc' (flippedCards (app w)) c Hin.
      left. destruct (Hlm c Hin Hin') as [Hmt|[uc0 [fc0 [nmp0 [E0 _]]]]];
        [exact Hmt|discriminate E0].
    + intros uc0 fc0 nmp0 [].
    + reflexivity.
Qed.

Lemma marked_inv_step w e w' :
  in_game e -> game_inv w -> marked_inv w -> step w e w' -> marked_inv w'.
Proof.
  intros Hg Hinv Hm Hstep.
  destruct Hstep as [w cardId s' ts Hin Hc|w k t Hk|w sort Hs|w name|w].
  - exact (marked_inv_click w cardId s' ts Hinv Hm Hc).
  - exact (marked_inv_fire w k t Hinv Hm Hk).
  - contradiction.
  - destruct Hm. now constructor.
  - destruct Hm. now constructor.
Qed.

(** An invariant of the turns of a game that may lean on [game_inv] holds
    of every world of one game. *)
Lemma in_one_game_ind (P : World -> Prop) :
  (forall sort s0, rearranges sort -> P (fresh sort s0)) ->
  (forall w e w', in_game e -> game_inv w -> P w -> step w e w' -> P w') ->
  forall w, in_one_game w -> P w.
Proof.
  intros H0 Hstep w [sort [s0 [es [Hsort [Hg Hrun]]]]].
  pose proof (game_inv_fresh sort s0 Hsort) as Hinv.
  specialize (H0 sort s0 Hsort).
  revert Hg Hinv H0. induction Hrun as [|w e w1 es w2 H1 _ IH]; intros Hg Hinv H0.
  - exact H0.
  - inversion Hg; subst. apply IH; [assumption| |].
    + now apply (game_inv_step w e).
    + now apply (Hstep w e).
Qed.

Lemma in_one_game_marked w : in_one_game w -> marked_inv w.
Proof.
  apply in_one_game_ind.
  - apply marked_inv_fresh.
  - intros. now apply (marked_inv_step w0 e).
Qed.

(** Further turns of a game stay in that game. *)
Lemma in_one_game_steps w es w' :
  in_one_game w -> Forall in_game es -> steps w es w' -> in_one_game w'.
Proof.
  intros [sort [s0 [es0 [Hsort [Hg0 Hrun0]]]]] Hg Hrun.
  exists sort, s0, (es0 ++ es). split; [exact Hsort|]. split.
  - apply Forall_app. now split.
  - now apply steps_app with w.
Qed.

(** *** The revealed cards *)

Lemma is_revealed_stateOf c : is_revealed c = true <-> stateOf c = Revealed.
Proof.
  unfold is_revealed, stateOf.
  destruct (isFlipped c), (isMatched c); simpl; split; congruence.
Qed.

Lemma revealed_inv_fresh sort s0 :
  rearranges sort -> revealed_inv (fresh sort s0).
Proof.
  intro Hsort. constructor; simpl.
  - intros c Hc Hr. pose proof (Hsort dealt) as Hp.
    apply Permutation_in with (1 := Permutation_sym Hp) in Hc.
    destruct (dealt_card c Hc) as [_ E]. rewrite E in Hr. discriminate.
  - intros uc fc nmp E. discriminate E.
Qed.

(** After a click the revealed cards are the former ones and the clicked
    one. *)
Lemma revealed_flipUp cs ids x :
  (forall c, In c cs -> is_revealed c = true -> In (id c) ids) ->
  forall c', In c' (flipUp x cs) -> is_revealed c' = true ->
             In (id c') (ids ++ [x]).
Proof.
  intros H c' Hc' Hr. apply in_flipUp in Hc'. destruct Hc' as [c [Hc ->]].
  apply in_or_app.
  destruct (Nat.eqb_spec (id c) x) as [E|E].
  - right. simpl. now left.
  - left. now apply H.
Qed.

Lemma revealed_inv_click w cardId s' ts :
  game_inv w -> revealed_inv w ->
  handleCardClick (app w) cardId = Returned s' ts ->
  revealed_inv (mkWorld s' (pending w ++ ts)).
Proof.
  intros Hinv [Hrl Hls] Hc.
  apply handleCardClick_Returned in Hc. destruct Hc as [card [Hf Hcases]].
  destruct (findCard_some _ _ _ Hf) as [Hcard Hcardid].
  pose proof (revealed_flipUp _ _ cardId Hrl) as Hrl'.
  destruct Hcases
    as [[Hig [-> ->]]
       |[[Hig [Hlen [-> ->]]]
        |[Hig [a [fc [Hfl [Ha Hsec]]]]]]].
  - rewrite app_nil_r. destruct w. now constructor.
  - destruct (phase_clickable _ _ (inv_phase w Hinv) Hig) as [Hpend _].
    rewrite Hpend. constructor; simpl.
    + exact Hrl'.
    + intros uc fc nmp E. discriminate E.
  - destruct (phase_clickable _ _ (inv_phase w Hinv) Hig) as [Hpend _].
    rewrite Hpend. rewrite Hfl in Hrl'. simpl app in Hrl'.
    destruct (findCard_some _ _ _ Ha) as [Hfc Hfcid].
    cbv zeta in Hsec.
    destruct Hsec as [[Hsame [-> ->]]|[Hdiff [-> ->]]]; constructor; simpl.
    + exact Hrl'.
    + intros uc fc0 nmp E c' Hc' Hin'. injection E as _ <- _.
      from_flipUp Hc' cardId c Hin.
      destruct Hin' as [E|[E|[]]].
      * now rewrite (same_id_same_card _ c fc (inv_ids w Hinv) Hin Hfc)
          by congruence.
      * rewrite (same_id_same_card _ c card (inv_ids w Hinv) Hin Hcard)
          by congruence.
        now symmetry.
    + exact Hrl'.
    + intros uc fc0 nmp E. discriminate E.
Qed.

Lemma revealed_inv_fire w k t :
  game_inv w -> revealed_inv w -> nth_error (pending w) k = Some t ->
  revealed_inv (mkWorld (fire t (app w)) (remove_nth k (pending w))).
Proof.
  intros Hinv [Hrl Hls] Hk.
  pose proof (inv_phase w Hinv) as Hph.
  destruct (phase_fire _ _ _ Hph Hk) as [Hpend ->].
  unfold phase in Hph. rewrite Hpend in *. simpl remove_nth.
  constructor; cbn [app pending]; [|intros uc fc nmp E; discriminate E].
  rewrite fire_clears. intros c' Hc' Hr. exfalso.
  destruct t as [uc fc nmp|uc nf].
  - destruct Hph as [-> [-> _]].
    rewrite (proj1 (fire_MarkMatched _ _ _ _)) in Hc'.
    apply in_markSymbol in Hc'. destruct Hc' as [c [Hin ->]].
    destruct (Nat.eqb_spec (pokemonId c) (pokemonId fc)) as [E|E];
      [discriminate Hr|].
    apply E. apply (Hls _ fc _ eq_refl c Hin). now apply Hrl.
  - destruct Hph as [-> [-> _]].
    rewrite (proj1 (fire_FlipBack _ _ _)) in Hc'.
    apply in_flipDown in Hc'. destruct Hc' as [c [Hin ->]].
    destruct (includes (id c) (flippedCards (app w))) eqn:Hinc;
      [discriminate Hr|].
    apply includes_not_In in Hinc. apply Hinc. now apply Hrl.
Qed.

Lemma in_one_game_revealed w : in_one_game w -> revealed_inv w.
Proof.
  apply in_one_game_ind.
  - apply revealed_inv_fresh.
  - intros w0 e w' Hg Hinv Hr Hstep.
    destruct Hstep as [w0 cardId s' ts Hin Hc|w0 k t Hk|w0 sort Hs|w0 name|w0].
    + exact (revealed_inv_click w0 cardId s' ts Hinv Hr Hc).
    + exact (revealed_inv_fire w0 k t Hinv Hr Hk).
    + contradiction.
    + destruct Hr. now constructor.
    + destruct Hr. now constructor.
Qed.

Lemma phase_at_most_two w :
  phase w -> List.length (flippedCards (app w)) <= 2.
Proof.
  unfold phase. destruct (pending w) as [|[uc fc nmp|uc nf] [|t l]];
    try contradiction; intuition lia.
Qed.

Lemma NoDup_map_filter (f : Card -> bool) cs :
  NoDup (List.map id cs) -> NoDup (List.map id (filter f cs)).
Proof.
  induction cs as [|c cs IH]; simpl; intro Hnd; [constructor|].
  inversion Hnd as [|? ? Hnotin Hnd']; subst.
  destruct (f c); simpl; [|now apply IH].
  constructor; [|now apply IH].
  intro Hin. apply Hnotin. apply in_map_iff in Hin.
  destruct Hin as [d [Hid Hd]]. apply filter_In in Hd.
  rewrite <- Hid. apply in_map. tauto.
Qed.

(** X5. In a game at most two cards are in the revealed state at any
    moment, and a revealed card is one of those named in
    [flippedCards]. *)
Theorem at_most_two_revealed w :
  in_one_game w ->
  List.length (filter is_revealed (cards (app w))) <= 2 /\
  (forall c, In c (cards (app w)) -> stateOf c = Revealed ->
             In (id c) (flippedCards (app w))).
Proof.
  intro Hw. pose proof (in_one_game_inv w Hw) as Hinv.
  pose proof (revealed_listed w (in_one_game_revealed w Hw)) as Hrl.
  split.
  - rewrite <- (length_map id).
    apply Nat.le_trans with (List.length (flippedCards (app w))).
    + apply NoDup_incl_length.
      * apply NoDup_map_filter. apply (inv_ids w Hinv).
      * intros x Hx. apply in_map_iff in Hx. destruct Hx as [c [<- Hc]].
        apply filter_In in Hc. now apply Hrl.
    + apply phase_at_most_two. apply (inv_phase w Hinv).
  - intros c Hc Hr. apply Hrl; [exact Hc|]. now apply is_revealed_stateOf.
Qed.

Lemma at_most_two_revealed_witness :
  let w := play [Click 0; Click 8; Fire 0; Click 3; Click 4] in
  List.length (filter is_revealed (cards (app w))) <= 2 /\
  (forall c, In c (cards (app w)) -> stateOf c = Revealed ->
             In (id c) (flippedCards (app w))).
Proof.
  apply (at_most_two_revealed
           (play [Click 0; Click 8; Fire 0; Click 3; Click 4])).
  apply play_in_one_game; [repeat constructor|vm_compute; discriminate].
Defined.

(** *** Matched cards and matched pairs *)

(** X6. In a game begun with no timer pending (none left over from a game
    before), a matched card has its symbol in [matchedPairs]; and unless
    the timer that marks a match is pending, every card whose symbol is in
    [matchedPairs] is matched. *)
Theorem matched_iff_listed w :
  in_one_game w ->
  (forall c, In c (cards (app w)) -> stateOf c = Matched ->
             In (pokemonId c) (matchedPairs (app w))) /\
  ((forall uc fc nmp, pending w <> [MarkMatched uc fc nmp]) ->
   forall c, In c (cards (app w)) ->
             In (pokemonId c) (matchedPairs (app w)) ->
             stateOf c = Matched).
Proof.
  intro Hw. destruct (in_one_game_marked w Hw) as [Hml Hlm _ _]. split.
  - intros c Hc Hm. apply Hml; [exact Hc|]. now apply stateOf_Matched.
  - intros Hno c Hc Hin. apply stateOf_Matched.
    destruct (Hlm c Hc Hin) as [Hm|[uc [fc [nmp [E _]]]]]; [exact Hm|].
    now destruct (Hno uc fc nmp).
Qed.

Lemma matched_iff_listed_witness :
  let w := play [Click 0; Click 8; Fire 0; Click 3; Click 4] in
  (forall c, In c (cards (app w)) -> stateOf c = Matched ->
             In (pokemonId c) (matchedPairs (app w))) /\
  ((forall uc fc nmp, pending w <> [MarkMatched uc fc nmp]) ->
   forall c, In c (cards (app w)) ->
             In (pokemonId c) (matchedPairs (app w)) ->
             stateOf c = Matched).
Proof.
  apply (matched_iff_listed
           (play [Click 0; Click 8; Fire 0; Click 3; Click 4])).
  apply play_in_one_game; [repeat constructor|vm_compute; discriminate].
Defined.

(** *** The end of a game *)

(** X7. In a game begun with no timer pending (none left over from a game
    before), once [gameOver] is set no timer is pending, no card is
    pending, all sixteen cards are matched, all [POKEMON_IDS.length] pairs
    are listed, the score is 80 and the tries are at least 8. *)
Theorem game_over_all_matched w :
  in_one_game w -> gameOver (app w) = true ->
  pending w = [] /\
  flippedCards (app w) = [] /\
  Forall (fun c => stateOf c = Matched) (cards (app w)) /\
  List.length (matchedPairs (app w)) = List.length POKEMON_IDS /\
  score (app w) = 80 /\
  8 <= tries (app w).
Proof.
  intros Hw Hov. pose proof (in_one_game_inv w Hw) as Hinv.
  pose proof (in_one_game_page_inv w Hw) as Hpage.
  destruct (in_one_game_marked w Hw) as [_ Hlm _ Hidle].
  pose proof (Hidle Hov) as Hpend.
  pose proof (inv_over w Hinv Hov) as Hlen.
  assert (Hall : forall c, In c (cards (app w)) -> isMatched c = true).
  { intros c Hc.
    destruct (Hlm c Hc) as [Hm|[uc [fc [nmp [E _]]]]]; [|exact Hm|congruence].
    apply (NoDup_length_incl (l' := POKEMON_IDS) (inv_pairs w Hinv)).
    - rewrite Hlen. apply Nat.le_refl.
    - apply (inv_pairs_known w Hinv).
    - apply symbol_known. pose proof (inv_deal w Hinv) as Hd.
      rewrite Forall_forall in Hd. auto. }
  split; [exact Hpend|]. split; [|split; [|split; [exact Hlen|]]].
  - pose proof (inv_phase w Hinv) as Hph. unfold phase in Hph.
    rewrite Hpend in Hph. destruct Hph as [_ Hfu].
    destruct (flippedCards (app w)) as [|x l]; [reflexivity|exfalso].
    destruct (Hfu x (or_introl eq_refl)) as [Hx Hup].
    apply in_map_iff in Hx. destruct Hx as [c [Hid Hc]].
    destruct (Hup c Hc Hid) as [_ [Hnm _]]. rewrite (Hall c Hc) in Hnm.
    discriminate.
  - apply Forall_forall. intros c Hc. apply stateOf_Matched. now apply Hall.
  - pose proof (page_score w Hpage) as Hs. pose proof (page_tries w Hpage) as Ht.
    rewrite Hlen in Hs, Ht. change (List.length POKEMON_IDS) with 8 in Hs, Ht.
    split; lia.
Qed.

Lemma game_over_all_matched_witness :
  pending (play whole_game) = [] /\
  flippedCards (app (play whole_game)) = [] /\
  Forall (fun c => stateOf c = Matched) (cards (app (play whole_game))) /\
  List.length (matchedPairs (app (play whole_game)))
  = List.length POKEMON_IDS /\
  score (app (play whole_game)) = 80 /\
  8 <= tries (app (play whole_game)).
Proof.
  apply (game_over_all_matched (play whole_game)).
  - apply play_in_one_game; [repeat constructor|vm_compute; discriminate].
  - vm_compute. reflexivity.
Defined.

(** After the end of a game a turn changes the name typed or hides the
    name input, nothing else. *)
Lemma over_step w e w' :
  in_one_game w -> gameOver (app w) = true -> in_game e -> step w e w' ->
  cards (app w') = cards (app w) /\
  flippedCards (app w') = flippedCards (app w) /\
  matchedPairs (app w') = matchedPairs (app w) /\
  score (app w') = score (app w) /\
  tries (app w') = tries (app w) /\
  gameOver (app w') = true /\
  pending w' = [].
Proof.
  intros Hw Hov Hg Hstep. pose proof (in_one_game_inv w Hw) as Hinv.
  pose proof (over_idle w (in_one_game_marked w Hw) Hov) as Hpend.
  destruct Hstep as [w cardId s' ts Hin Hc|w k t Hk|w sort Hs|w name|w].
  - apply handleCardClick_Returned in Hc.
    destruct Hc as [card [Hf Hcases]].
    destruct (findCard_some _ _ _ Hf) as [Hcard _].
    assert (Hig : ignores (app w) card = true).
    { destruct (ignores (app w) card) eqn:E; [reflexivity|].
      rewrite (clickable_not_over w card Hinv Hcard E) in Hov. discriminate. }
    destruct Hcases as [[_ [-> ->]]|[[E _]|[E _]]]; try congruence.
    simpl. rewrite Hpend. tauto.
  - rewrite Hpend in Hk. destruct k; discriminate.
  - contradiction.
  - simpl. tauto.
  - simpl. tauto.
Qed.

(** X8. In a game begun with no timer pending (none left over from a game
    before) the end is final: whatever clicks, name edits and saves follow
    in that game, the board, the pending cards, the matched pairs, the
    score and the tries stay as they are, [gameOver] stays set and no
    timer is scheduled. *)
Theorem game_over_is_final w es w' :
  in_one_game w -> gameOver (app w) = true ->
  Forall in_game es -> steps w es w' ->
  cards (app w') = cards (app w) /\
  flippedCards (app w') = flippedCards (app w) /\
  matchedPairs (app w') = matchedPairs (app w) /\
  score (app w') = score (app w) /\
  tries (app w') = tries (app w) /\
  gameOver (app w') = true /\
  pending w' = [].
Proof.
  intros Hw Hov Hg Hrun. revert Hw Hov Hg.
  induction Hrun as [|w e w1 es w2 H1 _ IH]; intros Hw Hov Hg.
  - pose proof (over_idle w (in_one_game_marked w Hw) Hov) as Hpend. tauto.
  - inversion Hg as [|? ? He Hes]; subst.
    destruct (over_step w e w1 Hw Hov He H1)
      as [Ec [Ef [Em [Es [Et [Eo _]]]]]].
    assert (Hw1 : in_one_game w1).
    { apply (in_one_game_steps w [e] w1 Hw).
      - now constructor.
      - econstructor; [exact H1|constructor]. }
    destruct (IH Hw1 Eo Hes) as [Ec' [Ef' [Em' [Es' [Et' [Eo' Ep']]]]]].
    repeat split; congruence.
Qed.

Lemma game_over_is_final_witness :
  let w := play whole_game in
  let w' := play (whole_game ++ [Click 3; TypeName (str "Ash"); Click 12;
                                 Saved; Click 0]) in
  cards (app w') = cards (app w) /\
  flippedCards (app w') = flippedCards (app w) /\
  matchedPairs (app w') = matchedPairs (app w) /\
  score (app w') = score (app w) /\
  tries (app w') = tries (app w) /\
  gameOver (app w') = true /\
  pending w' = [].
Proof.
  apply (game_over_is_final (play whole_game)
           [Click 3; TypeName (str "Ash"); Click 12; Saved; Click 0]).
  - apply play_in_one_game; [repeat constructor|vm_compute; discriminate].
  - vm_compute. reflexivity.
  - repeat constructor.
  - apply run_steps; [repeat constructor|vm_compute; reflexivity].
Defined.

(** *** Tries and timers *)

(** A click adds to [tries] the number of timers it schedules. *)
Lemma click_tries s cardId s' ts :
  handleCardClick s cardId = Returned s' ts ->
  tries s' = tries s + List.length ts.
Proof.
  intro Hc. apply handleCardClick_Returned in Hc.
  destruct Hc as [card [_ [[_ [-> ->]]|[[_ [_ [-> ->]]]|[_ Hsec]]]]];
    simpl; try lia.
  destruct Hsec as [a [fc [_ [_ [[_ [-> ->]]|[_ [-> ->]]]]]]]; simpl; lia.
Qed.

Lemma fire_tries t s : tries (fire t s) = tries s.
Proof.
  destruct t as [uc fc nmp|uc nf]; [|reflexivity].
  now destruct (fire_MarkMatched uc fc nmp s) as [_ [_ [_ [_ [-> _]]]]].
Qed.

Lemma steps_tries w es w' :
  Forall in_game es -> steps w es w' ->
  tries (app w') + List.length (pending w)
  = tries (app w) + fired es + List.length (pending w').
Proof.
  intros Hg Hrun. revert Hg.
  induction Hrun as [|w e w1 es w2 H1 _ IH]; intro Hg; [simpl; lia|].
  inversion Hg as [|? ? He Hes]; subst. specialize (IH Hes).
  destruct H1 as [w cardId s' ts Hin Hc|w k t Hk|w sort Hs|w name|w];
    simpl in *.
  - apply click_tries in Hc. rewrite length_app in IH. lia.
  - rewrite fire_tries in IH. apply length_remove_nth in Hk. lia.
  - contradiction.
  - lia.
  - lia.
Qed.

(** X9. In a game begun with no timer pending (none left over from a game
    before) [tries] counts the pairs turned: it equals the number of timer
    callbacks that have run plus the number still pending, which is at
    most one. *)
Theorem tries_count_timers sort s0 es w :
  rearranges sort -> Forall in_game es -> steps (fresh sort s0) es w ->
  tries (app w) = fired es + List.length (pending w) /\
  List.length (pending w) <= 1.
Proof.
  intros Hsort Hg Hrun. split.
  - pose proof (steps_tries _ _ _ Hg Hrun) as H. simpl in H. lia.
  - assert (Hw : in_one_game w) by (now exists sort, s0, es).
    pose proof (inv_phase w (in_one_game_inv w Hw)) as Hph.
    unfold phase in Hph.
    destruct (pending w) as [|t [|t2 l]]; simpl; try lia.
    destruct t; contradiction.
Qed.

Lemma tries_count_timers_witness :
  tries (app (play [Click 0; Click 8; Fire 0; Click 1; Click 2; Fire 0;
                    Click 3; Click 11]))
  = fired [Click 0; Click 8; Fire 0; Click 1; Click 2; Fire 0;
           Click 3; Click 11]
    + List.length (pending (play [Click 0; Click 8; Fire 0; Click 1; Click 2;
                                  Fire 0; Click 3; Click 11])) /\
  List.length (pending (play [Click 0; Click 8; Fire 0; Click 1; Click 2;
                              Fire 0; Click 3; Click 11])) <= 1.
Proof.
  apply (tries_count_timers keep_order initialState
           [Click 0; Click 8; Fire 0; Click 1; Click 2; Fire 0;
            Click 3; Click 11]).
  - apply keep_order_rearranges.
  - repeat constructor.
  - apply run_steps; [repeat constructor|vm_compute; reflexivity].
Defined.

End Game.

(* ================================================================== *)
(** ** Saving a result, from the page to the table *)
(* ================================================================== *)

Module Saving.

Lemma trimStart_nil s :
  trimStart s = [] <-> forallb is_white_space s = true.
Proof.
  induction s as [|u s IH]; simpl; [tauto|].
  destruct (is_white_space u); simpl; [exact IH|].
  split; discriminate.
Qed.

(** What [trimStart] leaves does not start with white space. *)
Lemma trimStart_head s u rest :
  trimStart s = u :: rest -> is_white_space u = false.
Proof.
  induction s as [|v s IH]; simpl; [discriminate|].
  destruct (is_white_space v) eqn:E; [exact IH|].
  intro H. injection H as <- _. exact E.
Qed.

Lemma forallb_rev (f : N -> bool) l : forallb f (rev l) = forallb f l.
Proof.
  induction l as [|x l IH]; simpl; [reflexivity|].
  rewrite forallb_app, IH. simpl. rewrite andb_true_r. apply andb_comm.
Qed.

(** [trim] leaves nothing exactly of the strings of white space. *)
Lemma trim_empty s :
  is_empty (trim s) = true <-> forallb is_white_space s = true.
Proof.
  unfold trim, trimEnd. split.
  - intro H.
    assert (Ht : trimStart (rev (trimStart s)) = []).
    { destruct (trimStart (rev (trimStart s))) as [|u l]; [reflexivity|].
      simpl in H. destruct (rev l); simpl in H; discriminate H. }
    apply trimStart_nil in Ht. rewrite forallb_rev in Ht.
    apply trimStart_nil.
    destruct (trimStart s) as [|u rest] eqn:E; [reflexivity|].
    apply trimStart_head in E. simpl in Ht. rewrite E in Ht. discriminate.
  - intro H. apply trimStart_nil in H. rewrite H. reflexivity.
Qed.

(** X10. [saveResult] posts exactly when the name typed has a code unit
    that is not white space; a name of white space only (or none) gets the
    alert and no request.  The name is posted as typed, not trimmed. *)
Theorem saveResult_needs_a_name s :
  (forallb is_white_space (App.playerName s) = true ->
   App.saveResult s = None) /\
  (forallb is_white_space (App.playerName s) = false ->
   exists body,
     App.saveResult s = Some body /\
     prop "player_name" body = JStr (App.playerName s)).
Proof.
  unfold App.saveResult. split; intro H.
  - apply trim_empty in H. now rewrite H.
  - destruct (is_empty (trim (App.playerName s))) eqn:E.
    + apply trim_empty in E. congruence.
    + eexists. split; reflexivity.
Qed.

Lemma saveResult_needs_a_name_witness :
  App.saveResult (App.setPlayerName [32; 9; 160; 10]%N App.initialState)
  = None /\
  exists body,
    App.saveResult (App.setPlayerName (str " Ash ") App.initialState)
    = Some body /\
    prop "player_name" body = JStr (str " Ash ").
Proof.
  split.
  - apply (proj1 (saveResult_needs_a_name
                    (App.setPlayerName [32; 9; 160; 10]%N App.initialState))).
    reflexivity.
  - apply (proj2 (saveResult_needs_a_name
                    (App.setPlayerName (str " Ash ") App.initialState))).
    reflexivity.
Defined.

(** X11. What the page posts the server stores: a body built by
    [saveResult] passes the check of [POST /api/results], so it is never
    answered 400; when the storage works it is stored as one new row with
    the name, the score, the tries and [matchedPairs.length + 1] and
    answered 200, and when the storage fails the answer is 500. *)
Theorem posted_result_is_stored bind affinity now db s body :
  App.saveResult s = Some body ->
  Server.missing_fields body = false /\
  Server.post_results bind affinity None now db body
  = (Server.mkDb
       (Server.game_results db
          ++ [Server.mkRow (Server.next_rowid db)
                (affinity (Server.declared Server.PlayerName)
                          (bind (JStr (App.playerName s))))
                (affinity (Server.declared Server.Score)
                          (bind (JNum (Z.of_nat (App.score s)))))
                (affinity (Server.declared Server.Tries)
                          (bind (JNum (Z.of_nat (App.tries s)))))
                (affinity (Server.declared Server.Matches)
                          (bind (JNum (Z.of_nat
                                   (List.length (App.matchedPairs s) + 1)))))
                now])
       (Server.next_rowid db),
     Server.mkResponse 200
       (Server.Object
          [("id"%string, JNum (Server.next_rowid db));
           ("player_name"%string, JStr (App.playerName s));
           ("score"%string, JNum (Z.of_nat (App.score s)));
           ("tries"%string, JNum (Z.of_nat (App.tries s)));
           ("matches"%string,
              JNum (Z.of_nat (List.length (App.matchedPairs s) + 1)));
           ("message"%string, JStr (str "Result saved successfully"))])) /\
  (forall message,
     Server.post_results bind affinity (Some message) now db body
     = (db, Server.mkResponse 500
              (Server.Object [("error"%string, JStr message)]))).
Proof.
  unfold App.saveResult. intro H.
  destruct (is_empty (trim (App.playerName s))) eqn:E; [discriminate|].
  injection H as <-.
  assert (Hname : exists u rest, App.playerName s = u :: rest).
  { destruct (App.playerName s) as [|u rest]; [discriminate E|].
    now exists u, rest. }
  destruct Hname as [u [rest Hname]].
  assert (Hm : Server.missing_fields
                 [("player_name"%string, JStr (App.playerName s));
                  ("score"%string, JNum (Z.of_nat (App.score s)));
                  ("tries"%string, JNum (Z.of_nat (App.tries s)));
                  ("matches"%string,
                     JNum (Z.of_nat (List.length (App.matchedPairs s) + 1)))]
               = false).
  { unfold Server.missing_fields. simpl. now rewrite Hname. }
  split; [exact Hm|]. split.
  - rewrite Store.post_results_cases, Hm. reflexivity.
  - intro message. rewrite Store.post_results_cases, Hm. reflexivity.
Qed.

Lemma posted_result_is_stored_witness :
  exists body,
    App.saveResult
      (App.app (App.play (App.whole_game ++ [App.TypeName (str "Ash")])))
    = Some body /\
    Server.missing_fields body = false /\
    Server.post_results Server.bind_bytes Server.affinity_digits None "2024-01-01 10:00:00"
                        Server.emptyDb body
    = (Server.mkDb
         [Server.mkRow 1 (Server.SqlText "Ash") (Server.SqlInt 80)
                       (Server.SqlInt 8) (Server.SqlInt 9)
                       "2024-01-01 10:00:00"] 1,
       Server.mkResponse 200
         (Server.Object
            [("id"%string, JNum 1);
             ("player_name"%string, JStr (str "Ash"));
             ("score"%string, JNum 80);
             ("tries"%string, JNum 8);
             ("matches"%string, JNum 9);
             ("message"%string, JStr (str "Result saved successfully"))])).
Proof.
  assert (Hs : App.saveResult
                 (App.app (App.play (App.whole_game
                                       ++ [App.TypeName (str "Ash")])))
               = Some [("player_name"%string, JStr (str "Ash"));
                       ("score"%string, JNum 80);
                       ("tries"%string, JNum 8);
                       ("matches"%string, JNum 9)])
    by (vm_compute; reflexivity).
  eexists. split; [exact Hs|].
  destruct (posted_result_is_stored Server.bind_bytes Server.affinity_digits "2024-01-01 10:00:00"
              Server.emptyDb _ _ Hs) as [Hm [Hp _]].
  split; [exact Hm|]. rewrite Hp. vm_compute. reflexivity.
Defined.

End Saving.

(* ================================================================== *)
(** ** The result store, further *)
(* ================================================================== *)

Module Ledger.
Import Server Store.

(** *** Sorting by a test *)

Section OrderByFacts.

Variable before : Row -> Row -> bool.
Hypothesis before_total :
  forall a b, before a b = false -> before b a = true.
Hypothesis before_trans :
  forall a b c, before a b = true -> before b c = true -> before a c = true.

Lemma insert_by_perm r l : Permutation (r :: l) (insert_by before r l).
Proof.
  induction l as [|x l IH]; simpl; [apply Permutation_refl|].
  destruct (before r x); [apply Permutation_refl|].
  apply perm_trans with (x :: r :: l); [apply perm_swap|].
  now apply perm_skip.
Qed.

Lemma insert_by_sorted r l :
  in_order before l -> in_order before (insert_by before r l).
Proof.
  unfold in_order. induction l as [|x l IH]; simpl; intro Hs.
  - constructor; constructor.
  - inversion Hs as [|? ? Hl Hx]; subst.
    destruct (before r x) eqn:E.
    + constructor; [exact Hs|]. constructor; [exact E|].
      eapply Forall_impl; [|exact Hx].
      intros y Hy. now apply (before_trans r x y).
    + constructor; [now apply IH|].
      apply Forall_forall. intros y Hy.
      apply Permutation_in with (1 := Permutation_sym (insert_by_perm r l))
        in Hy.
      destruct Hy as [<-|Hy].
      * now apply before_total.
      * rewrite Forall_forall in Hx. now apply Hx.
Qed.

Lemma order_by_permutation rows : Permutation rows (order_by before rows).
Proof.
  induction rows as [|r rows IH]; simpl; [constructor|].
  apply perm_trans with (r :: order_by before rows).
  - now apply perm_skip.
  - apply insert_by_perm.
Qed.

Lemma order_by_in_order rows : in_order before (order_by before rows).
Proof.
  induction rows as [|r rows IH]; simpl; [constructor|].
  now apply insert_by_sorted.
Qed.

End OrderByFacts.

(** A row that no other row may stand before heads every sorted
    arrangement. *)
Lemma top_row (before : Row -> Row -> bool) rows sorted r :
  Permutation rows sorted ->
  StronglySorted (fun r1 r2 => before r1 r2 = true) sorted ->
  In r rows ->
  (forall x, In x rows -> x = r \/ before x r = false) ->
  exists rest, sorted = r :: rest.
Proof.
  intros Hp Hs Hr Htop.
  destruct sorted as [|h rest].
  - apply Permutation_sym, Permutation_nil in Hp. subst. contradiction.
  - exists rest. f_equal.
    destruct (Htop h) as [E|E];
      [apply Permutation_in with (1 := Permutation_sym Hp); now left
      |exact E|].
    apply Permutation_in with (1 := Hp) in Hr. destruct Hr as [E'|Hin];
      [exact E'|].
    inversion Hs as [|? ? _ Hh]; subst. rewrite Forall_forall in Hh.
    rewrite (Hh r Hin) in E. discriminate.
Qed.

Lemma newer_first_total a b :
  newer_first a b = false -> newer_first b a = true.
Proof.
  unfold newer_first.
  destruct (String.compare (created_at a) (created_at b)) eqn:E;
    try discriminate.
  intros _. now rewrite String.compare_antisym, E.
Qed.

Lemma newer_first_trans a b c :
  newer_first a b = true -> newer_first b c = true -> newer_first a c = true.
Proof.
  unfold newer_first. intros Hab Hbc.
  destruct (String.compare (created_at a) (created_at c)) eqn:Eac;
    try reflexivity.
  exfalso.
  destruct (String.compare (created_at a) (created_at b)) eqn:Eab;
    try discriminate Hab.
  - apply String.compare_eq_iff in Eab. rewrite <- Eab, Eac in Hbc.
    discriminate.
  - destruct (String.compare (created_at b) (created_at c)) eqn:Ebc;
      try discriminate Hbc.
    + apply String.compare_eq_iff in Ebc. rewrite <- Ebc, Eab in Eac.
      discriminate.
    + assert (Hca : String.compare (created_at c) (created_at a) = Lt).
      { apply string_compare_lt_trans with (created_at b).
        - rewrite String.compare_antisym, Ebc. reflexivity.
        - rewrite String.compare_antisym, Eab. reflexivity. }
      rewrite String.compare_antisym, Hca in Eac. discriminate.
Qed.

(** X12. [GET /api/results] answers 200 with at most fifty rows: the rows
    of the table with the latest [created_at] first, cut after the
    fiftieth; a storage failure is answered 500 with the error. *)
Theorem recent_results db :
  (exists sorted,
     get_results None db = mkResponse 200 (Rows (firstn 50 sorted)) /\
     Permutation (game_results db) sorted /\
     in_order newer_first sorted /\
     List.length (firstn 50 sorted)
     = Nat.min 50 (List.length (game_results db))) /\
  (forall r1 r2,
     newer_first r1 r2 = true <->
     String.compare (created_at r1) (created_at r2) <> Lt) /\
  (forall message,
     get_results (Some message) db
     = mkResponse 500 (Object [("error"%string, JStr message)])).
Proof.
  split; [|split].
  - exists (order_by newer_first (game_results db)).
    split; [reflexivity|].
    split; [apply order_by_permutation|].
    split.
    + apply order_by_in_order;
        [exact newer_first_total|exact newer_first_trans].
    + rewrite length_firstn,
        <- (Permutation_length (order_by_permutation newer_first _)).
      reflexivity.
  - intros r1 r2. unfold newer_first.
    destruct (String.compare (created_at r1) (created_at r2));
      split; congruence.
  - reflexivity.
Qed.

(** On the example table: the latest first. *)
Example recent_results_example :
  get_results None (mkDb example_rows 3)
  = mkResponse 200 (Rows [brock; misty; ash]).
Proof. reflexivity. Qed.

(** *** A stored result is read back *)

Lemma stored_row bind affinity now db body :
  missing_fields body = false ->
  fst (post_results bind affinity None now db body)
  = mkDb (game_results db
            ++ [mkRow (next_rowid db) (affinity (declared PlayerName)
                                                (bind (prop "player_name" body)))
                                      (affinity (declared Score) (bind (prop "score" body)))
                                      (affinity (declared Tries) (bind (prop "tries" body)))
                                      (affinity (declared Matches) (bind (prop "matches" body)))
                                      now])
         (next_rowid db).
Proof. intro Hm. now rewrite post_results_cases, Hm. Qed.

(** X13. A result stored at a time later than every row of the table is
    the first row of the next [GET /api/results], with the id and the
    [created_at] the server gave it. *)
Theorem stored_result_is_most_recent bind affinity now db body :
  missing_fields body = false ->
  (forall r, In r (game_results db) ->
             String.compare (created_at r) now = Lt) ->
  exists rest,
    get_results None (fst (post_results bind affinity None now db body))
    = mkResponse 200
        (Rows (mkRow (next_rowid db) (affinity (declared PlayerName)
                                               (bind (prop "player_name" body)))
                                     (affinity (declared Score) (bind (prop "score" body)))
                                     (affinity (declared Tries) (bind (prop "tries" body)))
                                     (affinity (declared Matches) (bind (prop "matches" body)))
                                     now
               :: rest)).
Proof.
  intros Hm Hlater. rewrite (stored_row bind affinity now db body Hm).
  set (row := mkRow (next_rowid db) (affinity (declared PlayerName)
                                              (bind (prop "player_name" body)))
                                    (affinity (declared Score) (bind (prop "score" body)))
                                    (affinity (declared Tries) (bind (prop "tries" body)))
                                    (affinity (declared Matches) (bind (prop "matches" body)))
                                    now).
  destruct (top_row newer_first (game_results db ++ [row])
              (order_by newer_first (game_results db ++ [row])) row)
    as [rest Hrest].
  - apply order_by_permutation.
  - apply order_by_in_order;
      [exact newer_first_total|exact newer_first_trans].
  - apply in_or_app. right. now left.
  - intros x Hx. apply in_app_or in Hx. destruct Hx as [Hx|[<-|[]]].
    + right. unfold newer_first. simpl. now rewrite (Hlater x Hx).
    + now left.
  - exists (firstn 49 rest). unfold get_results, select_recent, limit.
    cbn [game_results]. now rewrite Hrest.
Qed.

Lemma stored_result_is_most_recent_witness :
  exists rest,
    get_results None
      (fst (post_results bind_bytes affinity_digits None "2024-01-02 09:00:00"
                         (mkDb example_rows 3) zero_body))
    = mkResponse 200
        (Rows (mkRow (next_rowid (mkDb example_rows 3))
                     (affinity_digits (declared PlayerName)
                        (bind_bytes (prop "player_name" zero_body)))
                     (affinity_digits (declared Score)
                        (bind_bytes (prop "score" zero_body)))
                     (affinity_digits (declared Tries)
                        (bind_bytes (prop "tries" zero_body)))
                     (affinity_digits (declared Matches)
                        (bind_bytes (prop "matches" zero_body)))
                     "2024-01-02 09:00:00"
               :: rest)).
Proof.
  apply (stored_result_is_most_recent bind_bytes affinity_digits "2024-01-02 09:00:00"
           (mkDb example_rows 3) zero_body).
  - reflexivity.
  - intros r Hr. simpl in Hr.
    destruct Hr as [<-|[<-|[<-|[]]]]; reflexivity.
Defined.

(** X14. A result stored with a score above every score of the table is
    the first row of the next leaderboard. *)
Theorem top_score_leads bind affinity now db body :
  missing_fields body = false ->
  (forall r, In r (game_results db) ->
             sql_compare (score r)
                         (affinity (declared Score) (bind (prop "score" body)))
             = Lt) ->
  exists rest,
    get_leaderboard None (fst (post_results bind affinity None now db body))
    = mkResponse 200
        (Rows (mkRow (next_rowid db) (affinity (declared PlayerName)
                                               (bind (prop "player_name" body)))
                                     (affinity (declared Score) (bind (prop "score" body)))
                                     (affinity (declared Tries) (bind (prop "tries" body)))
                                     (affinity (declared Matches) (bind (prop "matches" body)))
                                     now
               :: rest)).
Proof.
  intros Hm Hlower. rewrite (stored_row bind affinity now db body Hm).
  set (row := mkRow (next_rowid db) (affinity (declared PlayerName)
                                              (bind (prop "player_name" body)))
                                    (affinity (declared Score) (bind (prop "score" body)))
                                    (affinity (declared Tries) (bind (prop "tries" body)))
                                    (affinity (declared Matches) (bind (prop "matches" body)))
                                    now).
  destruct (top_row ranks_before (game_results db ++ [row])
              (order_by_score_desc_tries_asc (game_results db ++ [row])) row)
    as [rest Hrest].
  - apply order_by_perm.
  - apply order_by_sorted.
  - apply in_or_app. right. now left.
  - intros x Hx. apply in_app_or in Hx. destruct Hx as [Hx|[<-|[]]].
    + right. unfold ranks_before.
      change (score row)
        with (affinity (declared Score) (bind (prop "score" body))).
      now rewrite (Hlower x Hx).
    + now left.
  - exists (firstn 9 rest).
    unfold get_leaderboard, select_leaderboard, limit.
    cbn [game_results]. now rewrite Hrest.
Qed.

Lemma top_score_leads_witness :
  exists rest,
    get_leaderboard None
      (fst (post_results bind_bytes affinity_digits None "2024-01-02 09:00:00"
                         (mkDb example_rows 3)
                         [("player_name"%string, JStr (str "Gary"));
                          ("score"%string, JNum 80);
                          ("tries"%string, JNum 30);
                          ("matches"%string, JNum 9)]))
    = mkResponse 200
        (Rows (mkRow 4 (SqlText "Gary") (SqlInt 80) (SqlInt 30) (SqlInt 9)
                     "2024-01-02 09:00:00"
               :: rest)).
Proof.
  apply (top_score_leads bind_bytes affinity_digits "2024-01-02 09:00:00"
           (mkDb example_rows 3)
           [("player_name"%string, JStr (str "Gary"));
            ("score"%string, JNum 80);
            ("tries"%string, JNum 30);
            ("matches"%string, JNum 9)]).
  - reflexivity.
  - intros r Hr. simpl in Hr.
    destruct Hr as [<-|[<-|[<-|[]]]]; reflexivity.
Defined.

(** *** Ids *)

Lemma next_rowid_counted db :
  ids_counted db -> next_rowid db = (sqlite_sequence db + 1)%Z.
Proof.
  unfold ids_counted, next_rowid. generalize (sqlite_sequence db) as z.
  induction (game_results db) as [|r rows IH]; intros z H;
    cbn [fold_right List.map].
  - lia.
  - inversion H as [|? ? Hr Hrows]; subst. specialize (IH z Hrows). lia.
Qed.

(** One request: a row with the next id, or nothing. *)
Lemma serve_one bind affinity db rq :
  ids_counted db ->
  let db' := fst (post_results bind affinity (req_fault rq) (req_now rq) db
                               (req_body rq)) in
  ids_counted db' /\
  if accepted rq then
    exists row,
      game_results db' = game_results db ++ [row] /\
      id row = (sqlite_sequence db + 1)%Z /\
      created_at row = req_now rq /\
      sqlite_sequence db' = (sqlite_sequence db + 1)%Z
  else db' = db.
Proof.
  intros Hc db'. subst db'. rewrite post_results_cases. unfold accepted.
  destruct (missing_fields (req_body rq)); simpl; [now split|].
  destruct (req_fault rq); simpl; [now split|].
  rewrite (next_rowid_counted db Hc). split.
  - unfold ids_counted. simpl. apply Forall_app. split.
    + eapply Forall_impl; [|exact Hc]. simpl. intros; lia.
    + repeat constructor. simpl. lia.
  - eexists. repeat split.
Qed.

(** X15. Requests served one after the other never change or drop a row
    that is there: each accepted request appends one row, the others
    (missing fields, storage failure) leave the table as it is; the new
    rows get the ids after the counter, one by one, in the order of the
    requests. *)
Theorem serve_posts_appends bind affinity db rqs :
  ids_counted db ->
  exists new,
    game_results (serve_posts bind affinity db rqs) = game_results db ++ new /\
    List.map id new
    = ids_from (sqlite_sequence db + 1) (List.length (filter accepted rqs)) /\
    List.map created_at new = List.map req_now (filter accepted rqs) /\
    sqlite_sequence (serve_posts bind affinity db rqs)
    = (sqlite_sequence db + Z.of_nat (List.length (filter accepted rqs)))%Z /\
    ids_counted (serve_posts bind affinity db rqs).
Proof.
  revert db. induction rqs as [|rq rqs IH]; intros db Hc.
  - exists []. simpl. rewrite app_nil_r, Z.add_0_r. auto.
  - destruct (serve_one bind affinity db rq Hc) as [Hc1 H1].
    cbn [serve_posts fold_left]. cbn [filter].
    set (db1 := fst (post_results bind affinity (req_fault rq) (req_now rq) db
                                  (req_body rq))) in *.
    destruct (IH db1 Hc1) as [new [Hrows [Hids [Hnow [Hseq Hc']]]]].
    fold (serve_posts bind affinity db1 rqs).
    destruct (accepted rq).
    + destruct H1 as [row [Hr [Hid [Hcr Hs]]]].
      exists (row :: new). rewrite Hrows, Hr, <- app_assoc.
      split; [reflexivity|].
      cbn [List.map List.length ids_from].
      rewrite Hid, Hids, Hs, Hnow, Hcr, Hseq, Hs.
      repeat split; try assumption. lia.
    + rewrite H1 in *. exists new. auto.
Qed.

Lemma serve_posts_appends_witness :
  exists new,
    game_results
      (serve_posts bind_bytes affinity_digits (mkDb example_rows 3)
         [mkRequest zero_body "2024-01-02 09:00:00" None;
          mkRequest nameless_body "2024-01-02 09:01:00" None;
          mkRequest zero_body "2024-01-02 09:02:00" (Some (str "SQLITE_BUSY"));
          mkRequest misshapen_body "2024-01-02 09:03:00" None])
    = example_rows ++ new /\
    List.map id new = [4; 5]%Z /\
    List.map created_at new
    = ["2024-01-02 09:00:00"; "2024-01-02 09:03:00"]%string.
Proof.
  destruct (serve_posts_appends bind_bytes affinity_digits (mkDb example_rows 3)
              [mkRequest zero_body "2024-01-02 09:00:00" None;
               mkRequest nameless_body "2024-01-02 09:01:00" None;
               mkRequest zero_body "2024-01-02 09:02:00"
                         (Some (str "SQLITE_BUSY"));
               mkRequest misshapen_body "2024-01-02 09:03:00" None])
    as [new [Hrows [Hids [Hnow _]]]].
  - unfold ids_counted. simpl. repeat constructor; simpl; lia.
  - exists new. split; [exact Hrows|]. split; [exact Hids|exact Hnow].
Defined.

End Ledger.
